(** * Async video processing: upload validation, task list, task lifecycle

    A shallow embedding of the repository's sources:

    - [frontend/src/components/VideoUpload.jsx]: the upload component
      ([validateFile], [handleFileSelect]) and the task list component
      (the filter/sort effect, [getProgressPercentage]);
    - [ARCHITECTURE.md]: the task lifecycle ("Detailed State Transitions"),
      the distributed lock ([SET key worker NX EX 600]), the retry strategy
      ([calculate_retry_delay]), the client update batcher
      ([UpdateBatcher]), the polling fallback ([TaskPoller]) and the
      WebSocket reconnection ([connectWebSocket]).

    JavaScript strings are modelled as [string]; the engine's string
    primitives that depend on Unicode tables or on the locale
    ([toLowerCase], [trim], [localeCompare]) are an interface with an ASCII
    instance.  Numbers that the code only compares or adds are [N] or [Z];
    the retry delay, a float in the source, is an exact rational. *)

From Stdlib Require Import Ascii String QArith Qpower Qminmax Lqa DecimalString.
From stdpp Require Import gmap strings list sorting.

Local Open Scope string_scope.

(** ** JavaScript string primitives *)

Class JsString := {
  toLowerCase : string → string;
  trim : string → string;
  localeCompare : string → string → Z
}.

Module Js.

(** [s.split(c)] for a one-character separator: never the empty array. *)
Fixpoint split (c : ascii) (s : string) : list string :=
  match s with
  | EmptyString => [EmptyString]
  | String a s' =>
      if Ascii.eqb a c then EmptyString :: split c s'
      else match split c s' with
           | seg :: rest => String a seg :: rest
           | [] => [String a EmptyString]
           end
  end.

(** [a.pop()] read as a value: the last element ([undefined] on the empty
    array, which [split] never returns). *)
Definition pop (l : list string) : option string := last l.

(** [a.includes(x)] on an array of strings. *)
Definition includes (l : list string) (x : string) : bool :=
  existsb (String.eqb x) l.

(** [a.join(sep)] *)
Fixpoint join (sep : string) (l : list string) : string :=
  match l with
  | [] => ""
  | [x] => x
  | x :: rest => x ++ sep ++ join sep rest
  end.

(** [s.includes(t)]: [t] occurs in [s] as a substring. *)
Fixpoint str_includes (s t : string) : bool :=
  String.prefix t s ||
  match s with
  | EmptyString => false
  | String _ s' => str_includes s' t
  end.

(** [(num / den).toFixed(2)] for non-negative integers, [den > 0]. *)
Definition toFixed2 (num den : N) : string :=
  let h := ((num * 100 + den / 2) / den)%N in
  let frac := (h mod 100)%N in
  NilZero.string_of_uint (N.to_uint (h / 100)) ++ "." ++
  (if (frac <? 10)%N then "0" else "") ++ NilZero.string_of_uint (N.to_uint frac).

(** ASCII instance of the string primitives. *)
Definition lower_ascii (a : ascii) : ascii :=
  let n := nat_of_ascii a in
  if (65 <=? n)%nat && (n <=? 90)%nat then ascii_of_nat (n + 32) else a.

Fixpoint map_string (f : ascii → ascii) (s : string) : string :=
  match s with
  | EmptyString => EmptyString
  | String a s' => String (f a) (map_string f s')
  end.

Definition is_space (a : ascii) : bool :=
  let n := nat_of_ascii a in
  (n =? 32)%nat || ((9 <=? n)%nat && (n <=? 13)%nat).

Fixpoint trim_left (s : string) : string :=
  match s with
  | String a s' => if is_space a then trim_left s' else s
  | EmptyString => EmptyString
  end.

Fixpoint trim_right (s : string) : string :=
  match s with
  | EmptyString => EmptyString
  | String a s' =>
      match trim_right s' with
      | EmptyString => if is_space a then EmptyString else String a EmptyString
      | r => String a r
      end
  end.

Definition compare_sign (s t : string) : Z :=
  match String.compare s t with Lt => -1 | Eq => 0 | Gt => 1 end%Z.

#[global] Instance ascii_strings : JsString := {|
  toLowerCase := map_string lower_ascii;
  trim := fun s => trim_right (trim_left s);
  localeCompare := compare_sign
|}.

End Js.

(** ** VideoUpload.jsx: the upload component *)

Module File.
(** The fields of a browser [File] that the component reads. *)
Record t := mk { name : string; type : string; size : N }.
End File.

Module VideoUpload.
Section VideoUpload.
Context `{JsString}.

Definition MAX_FILE_SIZE : N := 2 * 1024 * 1024 * 1024.
Definition ALLOWED_VIDEO_TYPES : list string :=
  ["video/mp4"; "video/webm"; "video/quicktime"; "video/x-msvideo";
   "video/x-matroska"].
Definition ALLOWED_EXTENSIONS : list string :=
  [".mp4"; ".webm"; ".mov"; ".avi"; ".mkv"].

Record Validation := { isValid : bool; error : option string }.

(** ['.' + file.name.split('.').pop().toLowerCase()] *)
Definition fileExtension (file : File.t) : string :=
  "." ++ toLowerCase (default "" (Js.pop (Js.split "." (File.name file)))).

Definition validateFile (file : File.t) : Validation :=
  if negb (Js.includes ALLOWED_VIDEO_TYPES (File.type file)) then
    {| isValid := false;
       error := Some ("Invalid file type. Allowed types: "
                      ++ Js.join ", " ALLOWED_EXTENSIONS) |}
  else if negb (Js.includes ALLOWED_EXTENSIONS (fileExtension file)) then
    {| isValid := false;
       error := Some ("Invalid file extension. Allowed: "
                      ++ Js.join ", " ALLOWED_EXTENSIONS) |}
  else if (MAX_FILE_SIZE <? File.size file)%N then
    let maxSizeGB := Js.toFixed2 MAX_FILE_SIZE (1024 * 1024 * 1024) in
    {| isValid := false;
       error := Some ("File size exceeds maximum limit of " ++ maxSizeGB ++ "GB") |}
  else if (File.size file =? 0)%N then
    {| isValid := false; error := Some "File is empty" |}
  else {| isValid := true; error := None |}.

(** The component's state ([useState] cells) and the requests it has
    sent.  [uploadFile] is modelled up to [xhr.send]: it sets the three
    cells and posts the file; the asynchronous XHR events are not part of
    this model. *)
Record State := {
  st_error : option string;
  uploadedFile : option File.t;
  fileSize : N;
  isUploading : bool;
  uploadProgress : N;
  sent : list File.t
}.

Definition uploadFile (file : File.t) (s : State) : State :=
  {| st_error := None; uploadedFile := uploadedFile s; fileSize := fileSize s;
     isUploading := true; uploadProgress := 0;
     sent := sent s ++ [file] |}.

(** [files] is [None] for a null or undefined file list. *)
Definition handleFileSelect (files : option (list File.t)) (s : State) : State :=
  match files with
  | Some (file :: _) =>
      let validation := validateFile file in
      if negb (isValid validation) then
        {| st_error := error validation; uploadedFile := None;
           fileSize := fileSize s; isUploading := isUploading s;
           uploadProgress := uploadProgress s; sent := sent s |}
      else
        uploadFile file
          {| st_error := None; uploadedFile := uploadedFile s;
             fileSize := File.size file; isUploading := isUploading s;
             uploadProgress := uploadProgress s; sent := sent s |}
  | _ => s
  end.

(** The extension of a file name, read off the name itself and not off
    the code: the text after the last dot; a name without a dot has
    none. *)
Fixpoint after_last_dot (name : string) : option string :=
  match name with
  | EmptyString => None
  | String a rest =>
      match after_last_dot rest with
      | Some ext => Some ext
      | None => if Ascii.eqb a "." then Some rest else None
      end
  end.

(** The lower-cased extension, with its dot; for a name without a dot the
    whole name stands in for the text after the dot. *)
Definition extension (name : string) : string :=
  "." ++ toLowerCase (default name (after_last_dot name)).

(** A name has an allowed extension in the strict sense: it has a dot, and
    the lower-cased text after its last dot is one of the five. *)
Definition has_allowed_extension (name : string) : Prop :=
  ∃ ext, after_last_dot name = Some ext
         ∧ "." ++ toLowerCase ext ∈ ALLOWED_EXTENSIONS.

(** Malformed input: a MIME type outside the allowed video types, an
    extension outside the allowed ones, a size above 2 GiB, or an empty
    file. *)
Definition malformed (file : File.t) : Prop :=
  File.type file ∉ ALLOWED_VIDEO_TYPES
  ∨ extension (File.name file) ∉ ALLOWED_EXTENSIONS
  ∨ (2 * 1024 ^ 3 < File.size file)%N
  ∨ File.size file = 0%N.

(** The upload of [file] has been started: [s'] differs from [s] by one
    more request, for [file]. *)
Definition upload_started (file : File.t) (s s' : State) : Prop :=
  sent s' = (sent s ++ [file])%list ∧ isUploading s' = true.

End VideoUpload.
End VideoUpload.

(** ** VideoUpload.jsx: the task list component *)

(** [Array.prototype.sort(comparefn)].  ECMAScript fixes that the result is
  a rearrangement of the array; the order is implementation-defined when
  the comparator is not consistent (here: when a date does not parse and
  the difference is NaN).  A comparator returns [None] for NaN. *)
Class JsArraySort := {
  sort : ∀ {A : Type}, (A → A → option Z) → list A → list A;
  sort_Permutation : ∀ (A : Type) (cmp : A → A → option Z) (l : list A),
      sort cmp l ≡ₚ l
}.

(** [new Date(s)] read as a number: [None] for an invalid date. *)
Class JsDate := { dateValue : string → option Z }.

Module TaskList.

(** The fields of a task object that the component reads;
    [progress = None] stands for an absent (undefined or null) field. *)
Record Task := {
  id : string;
  name : string;
  status : string;
  progress : option Z;
  created_at : string
}.

Definition getProgressPercentage (task : Task) : Z :=
  if String.eqb (status task) "completed" then 100
  else if String.eqb (status task) "failed" then 0
  else match progress task with
       | Some p => if (p =? 0)%Z then 0 else p
       | None => 0
       end.

Section Effect.
Context `{JsString} `{JsArraySort} `{JsDate}.

(** The comparator of the sort: [NaN] when either date is invalid. *)
Definition compareTasks (sortBy : string) (a b : Task) : option Z :=
  if String.eqb sortBy "status" then Some (localeCompare (status a) (status b))
  else if String.eqb sortBy "name" then Some (localeCompare (name a) (name b))
  else match dateValue (created_at b), dateValue (created_at a) with
       | Some tb, Some ta => Some (tb - ta)%Z
       | _, _ => None
       end.

Definition matchesSearch (searchQuery : string) (task : Task) : bool :=
  Js.str_includes (toLowerCase (name task)) (toLowerCase searchQuery)
  || Js.str_includes (toLowerCase (id task)) (toLowerCase searchQuery).

Definition truthy (s : string) : bool := negb (String.eqb s "").

(** The body of the [useEffect]: the value passed to [setFilteredTasks]. *)
Definition filteredTasks (tasks : list Task)
    (filterStatus searchQuery sortBy : string) : list Task :=
  let filtered := tasks in
  let filtered :=
    if negb (String.eqb filterStatus "all")
    then List.filter (λ task, String.eqb (status task) filterStatus) filtered
    else filtered in
  let filtered :=
    if truthy (trim searchQuery)
    then List.filter (matchesSearch searchQuery) filtered
    else filtered in
  sort (compareTasks sortBy) filtered.

(** The summary footer: [Some (X, Y)] when "Showing X of Y task(s)" is
    rendered. *)
Definition footer (tasks shown : list Task) : option (nat * nat) :=
  if (0 <? length shown)%nat then Some (length shown, length tasks) else None.

End Effect.

(** A stable insertion sort, the executable instance of [sort]; NaN is
    read as +0, as the engine does. *)
Fixpoint insert_sorted {A} (cmp : A → A → option Z) (x : A) (l : list A) : list A :=
  match l with
  | [] => [x]
  | y :: l' =>
      if (default 0 (cmp x y) <=? 0)%Z then x :: y :: l'
      else y :: insert_sorted cmp x l'
  end.

Definition insertion_sort {A} (cmp : A → A → option Z) (l : list A) : list A :=
  foldr (insert_sorted cmp) [] l.

End TaskList.

(** ** ARCHITECTURE.md: retry strategy *)

Module Retry.

(** [calculate_retry_delay(retry_count)] for a retry count, which is not
    negative, with the value drawn by [random.uniform(0.8, 1.2)] as the
    argument [jitter].  [2 ** (retry_count - 1)] is an integer from 1 on
    (0.5 at 0); multiplying it by the float raises OverflowError once it
    is 2^1024 or more, that is from [retry_count = 1025]: [None].  Below
    that, scaling a float by a power of two and taking a minimum are
    exact, so the rational value is the float's. *)
Definition calculate_retry_delay (retry_count : N) (jitter : Q) : option Q :=
  if (1025 <=? retry_count)%N then None
  else
    let base_delay := Qpower 2 (Z.of_N retry_count - 1) in
    Some (Qmin (base_delay * jitter) 300).

End Retry.

(** ** ARCHITECTURE.md: update batcher *)

Module UpdateBatcher.
Section Batcher.
Context {Update : Type}.

(** [interval] is [true] while the timer whose handle is in
    [this.interval] is installed.  [start] overwrites the handle without
    clearing the timer it named: such a timer keeps firing and [stop]
    cannot reach it; [leaked] counts them.  [delivered] lists the calls
    [onBatch(u)] made so far, oldest first. *)
Record t := {
  queue : list Update;
  batchIntervalMs : N;
  interval : bool;
  leaked : nat;
  delivered : list Update
}.

Definition new (batchIntervalMs : option N) : t :=
  {| queue := []; batchIntervalMs := default 500%N batchIntervalMs;
     interval := false; leaked := 0; delivered := [] |}.

Definition addUpdate (update : Update) (b : t) : t :=
  {| queue := [update]; batchIntervalMs := batchIntervalMs b;
     interval := interval b; leaked := leaked b; delivered := delivered b |}.

Definition start (b : t) : t :=
  {| queue := queue b; batchIntervalMs := batchIntervalMs b;
     interval := true;
     leaked := if interval b then S (leaked b) else leaked b;
     delivered := delivered b |}.

Definition stop (b : t) : t :=
  {| queue := queue b; batchIntervalMs := batchIntervalMs b;
     interval := false; leaked := leaked b; delivered := delivered b |}.

(** Some timer of the batcher is installed. *)
Definition ticking (b : t) : bool := interval b || (0 <? leaked b)%nat.

(** One firing of the callback of an installed timer. *)
Definition tick (b : t) : t :=
  if ticking b then
    match queue b with
    | u :: _ =>
        {| queue := []; batchIntervalMs := batchIntervalMs b;
           interval := interval b; leaked := leaked b;
           delivered := delivered b ++ [u] |}
    | [] => b
    end
  else b.

Inductive Event := AddUpdate (u : Update) | Tick | Start | Stop.

Definition step (b : t) (e : Event) : t :=
  match e with
  | AddUpdate u => addUpdate u b
  | Tick => tick b
  | Start => start b
  | Stop => stop b
  end.

Definition run (evs : list Event) (b : t) : t := foldl step b evs.

Definition is_tick (e : Event) : bool :=
  match e with Tick => true | _ => false end.

End Batcher.
Arguments t : clear implicits.
Arguments Event : clear implicits.
End UpdateBatcher.

(** ** ARCHITECTURE.md: task lifecycle *)

Module Lifecycle.

Inductive Status := QUEUED | PROCESSING | COMPLETED | FAILED | CANCELLED.

#[global] Instance Status_eq_dec : EqDecision Status.
Proof. solve_decision. Defined.

(** The severities a processing error carries ("Error Classification");
    the enumeration's fourth value, FATAL, is a system failure and not a
    task-level error. *)
Inductive ErrorClass := RETRIABLE | PERMANENT | TRANSIENT.

(** The task model ("State Persistence"), the fields the transitions
    read or write. *)
Record Task := {
  status : Status;
  progress : Z;
  retry_count : Z;
  max_retries : Z;
  error_code : option string;
  started_at : option Z;
  completed_at : option Z
}.

(** The lock of a task: [SET task:{id}:processing worker_id NX EX 600]. *)
Record Lock := { worker_id : string; expires_at : Z }.

Definition LOCK_TTL : Z := 600.

Record System := {
  tasks : gmap string Task;
  locks : gmap string Lock;
  queue : list (string * Q);
  dead_letter : list string;
  checkpoints : gmap string (Z * string)
}.

Definition initial : System :=
  {| tasks := ∅; locks := ∅; queue := []; dead_letter := []; checkpoints := ∅ |}.

Inductive Outcome :=
| Ok | AlreadyLeased | LeaseExpired | LeaseLost | StaleCheckpoint
| NotFound | Rejected | NotCancellable.

(** *** Record-level transitions ("Detailed State Transitions") *)

(** 1. INITIAL -> QUEUED *)
Definition new_task (max : Z) : Task :=
  {| status := QUEUED; progress := 0; retry_count := 0; max_retries := max;
     error_code := None; started_at := None; completed_at := None |}.

(** 2. QUEUED -> PROCESSING: [status=PROCESSING, started_at=now] *)
Definition on_acquired (now : Z) (t : Task) : Task :=
  {| status := PROCESSING; progress := progress t;
     retry_count := retry_count t; max_retries := max_retries t;
     error_code := error_code t; started_at := Some now;
     completed_at := completed_at t |}.

(** 3. PROCESSING -> COMPLETED: [status=COMPLETED], [completed_at];
    [progress=100] is the spec's [reportSuccess]. *)
Definition on_completed (now : Z) (t : Task) : Task :=
  {| status := COMPLETED; progress := 100;
     retry_count := retry_count t; max_retries := max_retries t;
     error_code := error_code t; started_at := started_at t;
     completed_at := Some now |}.

(** 4. PROCESSING -> FAILED.  "Increments retry_count; if retry_count <
    max_retries: status QUEUED, re-enqueue; else: status FAILED, store
    the error, move to the dead-letter queue."  A PERMANENT error fails
    immediately ("Error Types & Handling").  The progress of a requeued
    task restarts at 0 (spec, data model). *)
Definition on_processing_error (cls : ErrorClass) (code : string) (t : Task) : Task :=
  match cls with
  | PERMANENT =>
      {| status := FAILED; progress := progress t;
         retry_count := retry_count t; max_retries := max_retries t;
         error_code := Some code; started_at := started_at t;
         completed_at := completed_at t |}
  | RETRIABLE | TRANSIENT =>
      let retry_count' := (retry_count t + 1)%Z in
      if (retry_count' <? max_retries t)%Z then
        {| status := QUEUED; progress := 0;
           retry_count := retry_count'; max_retries := max_retries t;
           error_code := Some code; started_at := started_at t;
           completed_at := completed_at t |}
      else
        {| status := FAILED; progress := progress t;
           retry_count := retry_count'; max_retries := max_retries t;
           error_code := Some code; started_at := started_at t;
           completed_at := completed_at t |}
  end.

(** 5. -> CANCELLED: "Update status to CANCELLED". *)
Definition on_cancelled (t : Task) : Task :=
  {| status := CANCELLED; progress := progress t;
     retry_count := retry_count t; max_retries := max_retries t;
     error_code := error_code t; started_at := started_at t;
     completed_at := completed_at t |}.

Definition with_progress (p : Z) (t : Task) : Task :=
  {| status := status t; progress := p;
     retry_count := retry_count t; max_retries := max_retries t;
     error_code := error_code t; started_at := started_at t;
     completed_at := completed_at t |}.

(** Modelled from the spec: the operator's [requeue] of a dead-lettered
    task (section 4.3), which the sources only name (README, "Retry
    Failed Job"): it resets [retryCount] to 0 and pushes the task back
    to QUEUED. *)
Definition on_requeued (t : Task) : Task :=
  {| status := QUEUED; progress := 0;
     retry_count := 0; max_retries := max_retries t;
     error_code := error_code t; started_at := started_at t;
     completed_at := completed_at t |}.

(** *** The lock ("Distributed Locks") *)

(** A lock is live until its TTL has run out. *)
Definition live (now : Z) (l : Lock) : bool := (now <? expires_at l)%Z.

(** [SET key worker NX EX 600]: [None] when a live key exists. *)
Definition set_nx_ex (now : Z) (key worker : string) (ls : gmap string Lock)
  : option (gmap string Lock) :=
  match ls !! key with
  | Some l =>
      if live now l then None
      else Some (<[key := {| worker_id := worker; expires_at := (now + LOCK_TTL)%Z |}]> ls)
  | None => Some (<[key := {| worker_id := worker; expires_at := (now + LOCK_TTL)%Z |}]> ls)
  end.

(** The caller holds the current lock of the task. *)
Definition holds (now : Z) (key worker : string) (ls : gmap string Lock) : bool :=
  match ls !! key with
  | Some l => String.eqb (worker_id l) worker && live now l
  | None => false
  end.

Definition dequeue (tid : string) (q : list (string * Q)) : list (string * Q) :=
  List.filter (λ e, negb (String.eqb (fst e) tid)) q.

(** The moves of one record: every change the operations make to an
    existing record is one of these. *)
Inductive transition : Task → Task → Prop :=
| transition_acquired now t :
    status t = QUEUED → transition t (on_acquired now t)
| transition_progress p t :
    status t = PROCESSING → (0 ≤ p ≤ 100)%Z → (progress t ≤ p)%Z →
    transition t (with_progress p t)
| transition_completed now t :
    status t = PROCESSING → transition t (on_completed now t)
| transition_error cls code t :
    status t = PROCESSING → transition t (on_processing_error cls code t)
| transition_cancelled t :
    status t = QUEUED ∨ status t = PROCESSING → transition t (on_cancelled t)
| transition_requeued t :
    status t = FAILED → transition t (on_requeued t).

(** The edges of the spec's state machine (section 4.1). *)
Definition spec_edge (s s' : Status) : bool :=
  match s, s' with
  | QUEUED, PROCESSING
  | PROCESSING, COMPLETED | PROCESSING, FAILED | PROCESSING, QUEUED
  | QUEUED, CANCELLED | PROCESSING, CANCELLED => true
  | _, _ => false
  end.

(** The edges the operations take: those of the spec, and
    FAILED -> QUEUED (the operator's requeue). *)
Definition edge (s s' : Status) : bool :=
  match s, s' with
  | FAILED, QUEUED => true
  | _, _ => spec_edge s s'
  end.

(** What the status of a record says about its progress. *)
Definition progress_consistent (t : Task) : Prop :=
  (status t = COMPLETED → progress t = 100%Z)
  ∧ (status t = QUEUED → progress t = 0%Z).

End Lifecycle.

(** ** The orchestrator: the lifecycle's operations on the shared state

  The sources describe the transitions and the lock; the operations'
  names, their lease checks and their outcomes follow the spec
  (section 4.1), which is noted at each operation. *)

Module Orchestrator.
Import Lifecycle.

Definition set_tasks (ts : gmap string Task) (σ : System) : System :=
  {| tasks := ts; locks := locks σ; queue := queue σ;
     dead_letter := dead_letter σ; checkpoints := checkpoints σ |}.
Definition set_locks (ls : gmap string Lock) (σ : System) : System :=
  {| tasks := tasks σ; locks := ls; queue := queue σ;
     dead_letter := dead_letter σ; checkpoints := checkpoints σ |}.
Definition set_queue (q : list (string * Q)) (σ : System) : System :=
  {| tasks := tasks σ; locks := locks σ; queue := q;
     dead_letter := dead_letter σ; checkpoints := checkpoints σ |}.
Definition set_dead_letter (d : list string) (σ : System) : System :=
  {| tasks := tasks σ; locks := locks σ; queue := queue σ;
     dead_letter := d; checkpoints := checkpoints σ |}.
Definition set_checkpoints (c : gmap string (Z * string)) (σ : System) : System :=
  {| tasks := tasks σ; locks := locks σ; queue := queue σ;
     dead_letter := dead_letter σ; checkpoints := c |}.

(** Transition 1: create the record with [status=QUEUED] and enqueue it
    with zero delay.  A negative retry budget or an identifier in use is
    rejected. *)
Definition submit (tid : string) (max : Z) (σ : System) : Outcome * System :=
  match tasks σ !! tid with
  | Some _ => (Rejected, σ)
  | None =>
      if (max <? 0)%Z then (Rejected, σ)
      else (Ok, set_queue (queue σ ++ [(tid, 0%Q)])
                  (set_tasks (<[tid := new_task max]> (tasks σ)) σ))
  end.

(** Modelled from the spec: [acquire] (section 4.1), absent from the
    sources as one operation: it atomically checks that the record is
    QUEUED, takes the lock and sets PROCESSING (transition 2); a task that
    is not QUEUED, or whose lock is live, answers AlreadyLeased and nothing
    changes.  The two separate steps of the sources are [LockRace]. *)
Definition acquire (now : Z) (tid worker : string) (σ : System) : Outcome * System :=
  match tasks σ !! tid with
  | None => (NotFound, σ)
  | Some t =>
      if decide (status t = QUEUED) then
        match set_nx_ex now tid worker (locks σ) with
        | Some ls =>
            (Ok, set_locks ls (set_tasks (<[tid := on_acquired now t]> (tasks σ)) σ))
        | None => (AlreadyLeased, σ)
        end
      else (AlreadyLeased, σ)
  end.

(** The worker's updates are honoured only while the task is PROCESSING
    and the caller holds its live lock. *)
Definition leased (now : Z) (tid worker : string) (σ : System) : option Task :=
  match tasks σ !! tid with
  | Some t =>
      if bool_decide (status t = PROCESSING) && holds now tid worker (locks σ)
      then Some t else None
  | None => None
  end.

(** Modelled from the spec: [renewLease] (section 4.2), absent from the
    sources: it succeeds only for the current holder of a live lease. *)
Definition renewLease (now : Z) (tid worker : string) (σ : System) : Outcome * System :=
  if holds now tid worker (locks σ) then
    (Ok, set_locks (<[tid := {| worker_id := worker;
                                expires_at := (now + LOCK_TTL)%Z |}]> (locks σ)) σ)
  else (LeaseLost, σ).

(** Modelled from the spec: [reportProgress] (section 4.1), absent from
    the sources: it requires the lease and updates [progress], an
    integer 0..100 that does not decrease while PROCESSING. *)
Definition reportProgress (now : Z) (tid worker : string) (p : Z) (σ : System)
  : Outcome * System :=
  match leased now tid worker σ with
  | None => (LeaseExpired, σ)
  | Some t =>
      if (0 <=? p)%Z && (p <=? 100)%Z && (progress t <=? p)%Z then
        (Ok, set_tasks (<[tid := with_progress p t]> (tasks σ)) σ)
      else (Rejected, σ)
  end.

(** Transition 3: COMPLETED, release the lock ([DEL]), acknowledge to the
    broker. *)
Definition reportSuccess (now : Z) (tid worker : string) (σ : System)
  : Outcome * System :=
  match leased now tid worker σ with
  | None => (LeaseExpired, σ)
  | Some t =>
      (Ok, set_queue (dequeue tid (queue σ))
             (set_locks (delete tid (locks σ))
                (set_tasks (<[tid := on_completed now t]> (tasks σ)) σ)))
  end.

(** The bookkeeping of transition 4 once the record has moved: a
    requeued task is re-enqueued with the backoff delay, a failed one
    goes to the dead-letter queue.  The retry count of a record starts at
    0 and is only ever incremented; when no delay can be computed (from
    the 1025th retry on) nothing is enqueued. *)
Definition settle_failure (tid : string) (jitter : Q) (t' : Task) (σ : System) : System :=
  let σ := set_locks (delete tid (locks σ))
             (set_tasks (<[tid := t']> (tasks σ)) σ) in
  match status t' with
  | QUEUED =>
      match Retry.calculate_retry_delay (Z.to_N (retry_count t')) jitter with
      | Some delay => set_queue (dequeue tid (queue σ) ++ [(tid, delay)]) σ
      | None => set_queue (dequeue tid (queue σ)) σ
      end
  | _ =>
      set_dead_letter (dead_letter σ ++ [tid])
        (set_queue (dequeue tid (queue σ)) σ)
  end.

(** Transition 4; [jitter] is the value drawn for the backoff delay. *)
Definition reportFailure (now : Z) (tid worker : string)
    (cls : ErrorClass) (code : string) (jitter : Q) (σ : System) : Outcome * System :=
  match leased now tid worker σ with
  | None => (LeaseExpired, σ)
  | Some t => (Ok, settle_failure tid jitter (on_processing_error cls code t) σ)
  end.

(** Transition 5.  Its actions are given for the two states in which
    there is something to cancel: a QUEUED task leaves the queue, a
    PROCESSING one loses its lock, and the status becomes CANCELLED.  A task
    in any other state is not cancellable ("Cancels task if still queued",
    and the spec's NotCancellable) and stays as it is. *)
Definition cancel (tid : string) (σ : System) : Outcome * System :=
  match tasks σ !! tid with
  | None => (NotFound, σ)
  | Some t =>
      match status t with
      | QUEUED =>
          let σ1 := set_queue (dequeue tid (queue σ)) σ in
          (Ok, set_tasks (<[tid := on_cancelled t]> (tasks σ1)) σ1)
      | PROCESSING =>
          let σ1 := set_locks (delete tid (locks σ)) σ in
          (Ok, set_tasks (<[tid := on_cancelled t]> (tasks σ1)) σ1)
      | _ => (NotCancellable, σ)
      end
  end.

(** "Retry Failed Job" (README.md, [POST /jobs/:jobId/retry]): a failed
    job is queued again.  That its retry count starts again at 0 and that
    it leaves the dead-letter queue is the spec's [requeue]. *)
Definition requeue (tid : string) (σ : System) : Outcome * System :=
  match tasks σ !! tid with
  | None => (NotFound, σ)
  | Some t =>
      if decide (status t = FAILED) then
        (Ok, set_queue (queue σ ++ [(tid, 0%Q)])
               (set_dead_letter (List.filter (λ d, negb (String.eqb d tid)) (dead_letter σ))
                  (set_tasks (<[tid := on_requeued t]> (tasks σ)) σ)))
      else (Rejected, σ)
  end.

(** "Worker Failure Handling": a PROCESSING task whose lock has run out
    is given back; the spec (section 4.4) counts it as a TRANSIENT
    failure. *)
Definition reap (now : Z) (tid : string) (jitter : Q) (σ : System) : Outcome * System :=
  match tasks σ !! tid with
  | None => (NotFound, σ)
  | Some t =>
      if bool_decide (status t = PROCESSING)
         && negb (from_option (live now) false (locks σ !! tid))
      then (Ok, settle_failure tid jitter
                  (on_processing_error TRANSIENT "WORKER_TIMEOUT" t) σ)
      else (Rejected, σ)
  end.

(** Modelled from the spec: the Checkpoint Store's [save] (section 4.5),
    absent from the sources: a write whose sequence number is not
    strictly greater than the stored one is rejected with StaleCheckpoint
    and changes nothing; any other write replaces the checkpoint. *)
Definition save (tid : string) (seq : Z) (payload : string) (σ : System)
  : Outcome * System :=
  match checkpoints σ !! tid with
  | Some (stored, _) =>
      if (seq <=? stored)%Z then (StaleCheckpoint, σ)
      else (Ok, set_checkpoints (<[tid := (seq, payload)]> (checkpoints σ)) σ)
  | None => (Ok, set_checkpoints (<[tid := (seq, payload)]> (checkpoints σ)) σ)
  end.

Inductive Op :=
| Submit (tid : string) (max : Z)
| Acquire (now : Z) (tid worker : string)
| RenewLease (now : Z) (tid worker : string)
| ReportProgress (now : Z) (tid worker : string) (p : Z)
| ReportSuccess (now : Z) (tid worker : string)
| ReportFailure (now : Z) (tid worker : string) (cls : ErrorClass)
    (code : string) (jitter : Q)
| Cancel (tid : string)
| Requeue (tid : string)
| Reap (now : Z) (tid : string) (jitter : Q)
| Save (tid : string) (seq : Z) (payload : string).

Definition exec (op : Op) (σ : System) : Outcome * System :=
  match op with
  | Submit tid max => submit tid max σ
  | Acquire now tid w => acquire now tid w σ
  | RenewLease now tid w => renewLease now tid w σ
  | ReportProgress now tid w p => reportProgress now tid w p σ
  | ReportSuccess now tid w => reportSuccess now tid w σ
  | ReportFailure now tid w cls code j => reportFailure now tid w cls code j σ
  | Cancel tid => cancel tid σ
  | Requeue tid => requeue tid σ
  | Reap now tid j => reap now tid j σ
  | Save tid seq payload => save tid seq payload σ
  end.

(** The state after a sequence of operations, and their outcomes. *)
Fixpoint exec_all (ops : list Op) (σ : System) : list Outcome * System :=
  match ops with
  | [] => ([], σ)
  | op :: ops' =>
      let '(r, σ') := exec op σ in
      let '(rs, σ'') := exec_all ops' σ' in
      (r :: rs, σ'')
  end.

Inductive reachable : System → Prop :=
| reachable_initial : reachable initial
| reachable_exec op σ : reachable σ → reachable (exec op σ).2.

(** The status of a task, when it exists. *)
Definition status_of (tid : string) (σ : System) : option Status :=
  status <$> tasks σ !! tid.

(** The statuses a task goes through under a sequence of operations,
    the starting one first, repetitions dropped. *)
Fixpoint history (tid : string) (ops : list Op) (σ : System) : list (option Status) :=
  match ops with
  | [] => [status_of tid σ]
  | op :: ops' =>
      let σ' := (exec op σ).2 in
      if decide (status_of tid σ = status_of tid σ')
      then history tid ops' σ'
      else status_of tid σ :: history tid ops' σ'
  end.

(** [acquire] calls for one task, in the order in which they take effect;
    each call has its own time and worker. *)
Definition acquire_calls (tid : string) (calls : list (Z * string)) : list Op :=
  (λ c, Acquire c.1 tid c.2) <$> calls.

(** A lock is only ever held on a PROCESSING task. *)
Definition locks_only_processing (σ : System) : Prop :=
  ∀ tid l, locks σ !! tid = Some l → status_of tid σ = Some PROCESSING.

End Orchestrator.

(** ** The race for one task ("Distributed Locks", transition 2) *)

(** The sources give a worker two separate steps when it picks up a task:
    it takes the lock ([SET task:{id}:processing worker_id NX EX 600]) and,
    having got it, updates the record ([status=PROCESSING],
    [started_at=now]).  Workers that were delivered the same task run
    these steps in any interleaving.  A worker whose [SET] is refused
    drops the task: this is the answer [AlreadyLeased]. *)
Module LockRace.
Import Lifecycle.

Record State := {
  lock_table : gmap string Lock;
  record : Task;
  (** the workers whose [SET] succeeded and whose update is still to come *)
  holders : list string;
  (** the answers given so far, in order *)
  outcomes : list (string * Outcome)
}.

Inductive Step :=
| TryLock (now : Z) (worker : string)
| MarkProcessing (now : Z) (worker : string).



Definition start (t : Task) : State :=
  {| lock_table := ∅; record := t; holders := []; outcomes := [] |}.

Definition step (tid : string) (s : State) (e : Step) : State :=
  match e with
  | TryLock now worker =>
      match set_nx_ex now tid worker (lock_table s) with
      | Some ls =>
          {| lock_table := ls; record := record s;
             holders := holders s ++ [worker]; outcomes := outcomes s |}
      | None =>
          {| lock_table := lock_table s; record := record s;
             holders := holders s;
             outcomes := outcomes s ++ [(worker, AlreadyLeased)] |}
      end
  | MarkProcessing now worker =>
      if bool_decide (worker ∈ holders s) then
        {| lock_table := lock_table s; record := on_acquired now (record s);
           holders := List.filter (λ w, negb (String.eqb w worker)) (holders s);
           outcomes := outcomes s ++ [(worker, Ok)] |}
      else s
  end.

Definition run (tid : string) (evs : list Step) (s : State) : State :=
  foldl (step tid) s evs.






End LockRace.

(** ** Scenarios *)

Module Scenario.
Import Lifecycle Orchestrator.

(** One processing attempt that ends in a RETRIABLE failure. *)
Definition failing_attempt (now : Z) (tid worker : string) : list Op :=
  [Acquire now tid worker;
   ReportFailure (now + 1) tid worker RETRIABLE "UPLOAD_FAILED" 1].

(** A task with [max_retries = 3] whose every attempt fails: five
    attempts are offered. *)
Definition always_failing : list Op :=
  Submit "T" 3
  :: failing_attempt 0 "T" "worker-1" ++ failing_attempt 10 "T" "worker-2"
  ++ failing_attempt 20 "T" "worker-1" ++ failing_attempt 30 "T" "worker-2"
  ++ failing_attempt 40 "T" "worker-1".

(** A task that is submitted, acquired and completed. *)
Definition completed : System :=
  (exec_all [Submit "T3" 3; Acquire 0 "T3" "worker-1";
             ReportSuccess 5 "T3" "worker-1"] initial).2.

(** A task that is submitted and acquired, and reports progress 100. *)
Definition fully_progressed : System :=
  (exec_all [Submit "T3" 3; Acquire 0 "T3" "worker-1";
             ReportProgress 5 "T3" "worker-1" 100] initial).2.

(** A task that has failed with a PERMANENT error. *)
Definition dead_lettered : System :=
  (exec_all [Submit "T1" 0; Acquire 0 "T1" "worker-1";
             ReportFailure 1 "T1" "worker-1" PERMANENT "UNSUPPORTED_CODEC" 1]
     initial).2.

(** A submitted task, and a checkpoint stored with sequence number 5. *)
Definition queued : System := (exec_all [Submit "T2" 3] initial).2.
Definition checkpointed : System :=
  (exec_all [Submit "T2" 3; Save "T2" 5 "chunk-5"] initial).2.

End Scenario.

(** ** VideoUpload.jsx: the upload component and its events

    The whole component: every [useState] cell, the handlers, the
    listeners that [uploadFile] installs on its request, and what the
    rendered page lets the user do.  The requests sent are numbered in the
    order of [xhr.send]; a request's load, error or abort fires at most
    once.  Exceptions raised by the browser inside [uploadFile] (the
    [catch] branch) are outside this model, and both callbacks are taken
    to be provided. *)

Module Uploader.

(** A property value of the uploaded-file object: a string, a number, or
    any other JSON value, told apart by a tag. *)
Inductive Value := Str (s : string) | Num (n : Z) | Other (tag : nat).

Section Uploader.
Context `{JsString}.

Record State := {
  dragActive : bool;
  uploadProgress : Z;
  isUploading : bool;
  uploadedFile : option (gmap string Value);
  error : option string;
  fileSize : N;
  requests : list File.t;
  settled : list nat;
  onUploadSuccess : list (gmap string Value);
  onUploadError : list string
}.

Definition initial : State :=
  {| dragActive := false; uploadProgress := 0; isUploading := false;
     uploadedFile := None; error := None; fileSize := 0;
     requests := []; settled := [];
     onUploadSuccess := []; onUploadError := [] |}.

(** [uploadFile(file)] up to [xhr.send(formData)], for a [try] body that
    runs through: the [catch] branch (an exception raised while the
    request is set up) is outside this model. *)
Definition uploadFile (file : File.t) (s : State) : State :=
  {| dragActive := dragActive s; uploadProgress := 0; isUploading := true;
     uploadedFile := uploadedFile s; error := None; fileSize := fileSize s;
     requests := (requests s ++ [file])%list; settled := settled s;
     onUploadSuccess := onUploadSuccess s; onUploadError := onUploadError s |}.

Definition handleFileSelect (files : option (list File.t)) (s : State) : State :=
  match files with
  | Some (file :: _) =>
      let validation := VideoUpload.validateFile file in
      if negb (VideoUpload.isValid validation) then
        {| dragActive := dragActive s; uploadProgress := uploadProgress s;
           isUploading := isUploading s; uploadedFile := None;
           error := VideoUpload.error validation; fileSize := fileSize s;
           requests := requests s; settled := settled s;
           onUploadSuccess := onUploadSuccess s; onUploadError := onUploadError s |}
      else
        uploadFile file
          {| dragActive := dragActive s; uploadProgress := uploadProgress s;
             isUploading := isUploading s; uploadedFile := uploadedFile s;
             error := None; fileSize := File.size file;
             requests := requests s; settled := settled s;
             onUploadSuccess := onUploadSuccess s; onUploadError := onUploadError s |}
  | _ => s
  end.

Definition setDragActive (b : bool) (s : State) : State :=
  {| dragActive := b; uploadProgress := uploadProgress s;
     isUploading := isUploading s; uploadedFile := uploadedFile s;
     error := error s; fileSize := fileSize s;
     requests := requests s; settled := settled s;
     onUploadSuccess := onUploadSuccess s; onUploadError := onUploadError s |}.

Definition handleDragOver (s : State) : State := setDragActive true s.
Definition handleDragLeave (s : State) : State := setDragActive false s.

Definition handleDrop (files : option (list File.t)) (s : State) : State :=
  let s := setDragActive false s in
  match files with
  | Some (_ :: _) => handleFileSelect files s
  | _ => s
  end.

Definition handleClear (s : State) : State :=
  {| dragActive := dragActive s; uploadProgress := 0;
     isUploading := isUploading s; uploadedFile := None;
     error := None; fileSize := 0;
     requests := requests s; settled := settled s;
     onUploadSuccess := onUploadSuccess s; onUploadError := onUploadError s |}.

(** The request's terminal event has fired. *)
Definition settle (i : nat) (s : State) : State :=
  {| dragActive := dragActive s; uploadProgress := uploadProgress s;
     isUploading := isUploading s; uploadedFile := uploadedFile s;
     error := error s; fileSize := fileSize s;
     requests := requests s; settled := i :: settled s;
     onUploadSuccess := onUploadSuccess s; onUploadError := onUploadError s |}.

(** The 'progress' listener; [percentComplete] is the rounded percentage,
    [None] when the length is not computable. *)
Definition onProgress (percentComplete : option Z) (s : State) : State :=
  match percentComplete with
  | Some p =>
      {| dragActive := dragActive s; uploadProgress := p;
         isUploading := isUploading s; uploadedFile := uploadedFile s;
         error := error s; fileSize := fileSize s;
         requests := requests s; settled := settled s;
         onUploadSuccess := onUploadSuccess s; onUploadError := onUploadError s |}
  | None => s
  end.

(** The 'load' listener of the request for [file].  [response] holds the
    properties of [JSON.parse(xhr.responseText)] that a spread copies,
    [None] when parsing throws; [now] is [new Date().toISOString()].  On
    any other status the listener throws: nothing is set, nobody is
    told.  The logs [onUploadSuccess] and [onUploadError] list the calls
    of the two props for a parent that provides them; the listeners skip
    the call for a prop that is absent. *)
Definition onLoad (file : File.t) (status : Z)
    (response : option (gmap string Value)) (now : string) (s : State) : State :=
  if (status =? 200)%Z || (status =? 201)%Z then
    match response with
    | Some response =>
        {| dragActive := dragActive s; uploadProgress := 100;
           isUploading := false;
           uploadedFile :=
             Some (response ∪ {[ "name" := Str (File.name file);
                                 "size" := Num (Z.of_N (File.size file));
                                 "uploadedAt" := Str now ]});
           error := error s; fileSize := fileSize s;
           requests := requests s; settled := settled s;
           onUploadSuccess := (onUploadSuccess s ++ [response])%list;
           onUploadError := onUploadError s |}
    | None => s
    end
  else s.

(** The 'error' and 'abort' listeners. *)
Definition onFailure (errorMsg : string) (s : State) : State :=
  {| dragActive := dragActive s; uploadProgress := 0; isUploading := false;
     uploadedFile := uploadedFile s; error := Some errorMsg;
     fileSize := fileSize s;
     requests := requests s; settled := settled s;
     onUploadSuccess := onUploadSuccess s;
     onUploadError := (onUploadError s ++ [errorMsg])%list |}.

Inductive Event :=
| Change (files : option (list File.t))
| Drop (files : option (list File.t))
| DragOver
| DragLeave
| Clear
| XhrProgress (i : nat) (percentComplete : option Z)
| XhrLoad (i : nat) (status : Z) (response : option (gmap string Value)) (now : string)
| XhrError (i : nat)
| XhrAbort (i : nat).

(** Request [i] has been sent and none of load, error, abort has fired. *)
Definition pending (i : nat) (s : State) : bool :=
  (i <? length (requests s))%nat && negb (existsb (Nat.eqb i) (settled s)).

(** What the rendered page allows: the drop area exists while no file is
    shown as uploaded, its file input is disabled while uploading; the
    clear button exists in the success view and is disabled while
    uploading; a request fires events until it is settled. *)
Definition enabled (e : Event) (s : State) : bool :=
  match e with
  | Change _ => bool_decide (uploadedFile s = None) && negb (isUploading s)
  | Drop _ | DragOver | DragLeave => bool_decide (uploadedFile s = None)
  | Clear => negb (bool_decide (uploadedFile s = None)) && negb (isUploading s)
  | XhrProgress i _ | XhrLoad i _ _ _ | XhrError i | XhrAbort i => pending i s
  end.

Definition handle (e : Event) (s : State) : State :=
  match e with
  | Change files => handleFileSelect files s
  | Drop files => handleDrop files s
  | DragOver => handleDragOver s
  | DragLeave => handleDragLeave s
  | Clear => handleClear s
  | XhrProgress _ p => onProgress p s
  | XhrLoad i status response now =>
      match requests s !! i with
      | Some file => onLoad file status response now (settle i s)
      | None => s
      end
  | XhrError i => onFailure "Upload failed. Please try again." (settle i s)
  | XhrAbort i => onFailure "Upload was cancelled." (settle i s)
  end.

Definition step (s : State) (e : Event) : State :=
  if enabled e s then handle e s else s.

Definition run (evs : list Event) (s : State) : State := foldl step s evs.

Definition is_drop (e : Event) : bool :=
  match e with Drop _ => true | _ => false end.

(** The cells that the earlier model of [handleFileSelect] keeps. *)
Definition cells (s : State) : VideoUpload.State :=
  {| VideoUpload.st_error := error s; VideoUpload.uploadedFile := None;
     VideoUpload.fileSize := fileSize s; VideoUpload.isUploading := isUploading s;
     VideoUpload.uploadProgress := Z.to_N (uploadProgress s);
     VideoUpload.sent := requests s |}.

(** The component shows "Uploading..." and nothing it has sent is still
    under way. *)
Definition stuck (s : State) : Prop :=
  isUploading s = true ∧ uploadedFile s = None ∧ error s = None
  ∧ ∀ i, pending i s = false.

(** The object in [uploadedFile], if any, has the three fields the success
    view prints. *)
Definition success_view_complete (s : State) : Prop :=
  ∀ m, uploadedFile s = Some m →
    is_Some (m !! "name") ∧ is_Some (m !! "size") ∧ is_Some (m !! "uploadedAt").

End Uploader.
End Uploader.

(** ** VideoUpload.jsx: more of the task list *)

(** [Array.prototype.sort] with a consistent comparator: the elements
    come out in the comparator's order. *)
Definition cmp_le {A} (cmp : A → A → option Z) (a b : A) : Prop :=
  ∃ v, cmp a b = Some v ∧ (v ≤ 0)%Z.

Definition consistent_comparator {A} (cmp : A → A → option Z) (l : list A) : Prop :=
  (∀ a b, a ∈ l → b ∈ l → is_Some (cmp a b))
  ∧ (∀ a b v w, a ∈ l → b ∈ l → cmp a b = Some v → cmp b a = Some w →
       Z.sgn w = (- Z.sgn v)%Z)
  ∧ (∀ a b c, a ∈ l → b ∈ l → c ∈ l →
       cmp_le cmp a b → cmp_le cmp b c → cmp_le cmp a c).

Class JsSort := {
  JsSort_sort :: JsArraySort;
  sort_StronglySorted :
    ∀ (A : Type) (cmp : A → A → option Z) (l : list A),
      consistent_comparator cmp l → StronglySorted (cmp_le cmp) (sort cmp l)
}.

Module TaskListView.
Import TaskList.

(** The condition under which the effect keeps a task. *)
Definition passes `{JsString} (filterStatus searchQuery : string) (task : Task) : bool :=
  (String.eqb filterStatus "all" || String.eqb (status task) filterStatus)
  && (negb (truthy (trim searchQuery)) || matchesSearch searchQuery task).

(** The text shown in place of the list when nothing is displayed. *)
Definition emptyMessage (tasks shown : list Task) : option string :=
  if (length shown =? 0)%nat then
    Some (if (length tasks =? 0)%nat
          then "No tasks available. Start processing a video!"
          else "No tasks match your filters.")
  else None.

(** [a] was created no earlier than [b]. *)
Definition not_older `{JsDate} (a b : Task) : Prop :=
  ∃ ta tb, dateValue (created_at a) = Some ta
    ∧ dateValue (created_at b) = Some tb ∧ (tb ≤ ta)%Z.

(** [`${n}`] for an integer. *)
Definition numberToString (n : Z) : string :=
  NilZero.string_of_int (Z.to_int n).

(** [formatDuration(seconds)] for a whole number of seconds of magnitude
    at most 2^53, the integers a double holds exactly.  There [%] is exact
    and is [Z.rem]; the quotient by 3600 is below 2^42, where doubles are
    at most 2^-11 apart, so rounding moves it by at most 2^-12, less than
    the 1/3600 that separates it from the next integer: [Math.floor] of
    the double is [Z.div].  Beyond that range the function works on
    rounded values and this definition does not describe it. *)
Definition formatDuration (seconds : Z) : string :=
  if (seconds =? 0)%Z then "--:--"
  else
    let hours := (seconds / 3600)%Z in
    let minutes := (Z.rem seconds 3600 / 60)%Z in
    let secs := Z.rem seconds 60 in
    if (0 <? hours)%Z then
      numberToString hours ++ "h " ++ numberToString minutes ++ "m "
      ++ numberToString secs ++ "s"
    else numberToString minutes ++ "m " ++ numberToString secs ++ "s".

End TaskListView.

(** ** VideoUpload.jsx: the task list component, render by render *)

Module TaskListComponent.
Section Component.
Context `{JsString} `{JsArraySort} `{JsDate}.

(** What a render reads: the [tasks] prop and the state cells.  The cell
    [filteredTasks] is set by the effect only, which runs after the
    render: a render that follows a change of [tasks] or of a control
    still shows the list of the effect before. *)
Record State := {
  tasks : list TaskList.Task;
  filteredTasks : list TaskList.Task;
  filterStatus : string;
  sortBy : string;
  searchQuery : string
}.

(** The first render: [useState(tasks)], ['all'], ['created_at'], ['']. *)
Definition mount (tasks : list TaskList.Task) : State :=
  {| tasks := tasks; filteredTasks := tasks; filterStatus := "all";
     sortBy := "created_at"; searchQuery := "" |}.

(** What makes the component render again. *)
Inductive Event :=
| NewTasks (tasks : list TaskList.Task)
| SetFilterStatus (value : string)
| SetSortBy (value : string)
| SetSearchQuery (value : string).

(** The render that follows an event, before its effect. *)
Definition render (e : Event) (s : State) : State :=
  match e with
  | NewTasks tasks' =>
      {| tasks := tasks'; filteredTasks := filteredTasks s;
         filterStatus := filterStatus s; sortBy := sortBy s;
         searchQuery := searchQuery s |}
  | SetFilterStatus value =>
      {| tasks := tasks s; filteredTasks := filteredTasks s;
         filterStatus := value; sortBy := sortBy s;
         searchQuery := searchQuery s |}
  | SetSortBy value =>
      {| tasks := tasks s; filteredTasks := filteredTasks s;
         filterStatus := filterStatus s; sortBy := value;
         searchQuery := searchQuery s |}
  | SetSearchQuery value =>
      {| tasks := tasks s; filteredTasks := filteredTasks s;
         filterStatus := filterStatus s; sortBy := sortBy s;
         searchQuery := value |}
  end.

(** The effect and the render its [setFilteredTasks] causes. *)
Definition effect (s : State) : State :=
  {| tasks := tasks s;
     filteredTasks :=
       TaskList.filteredTasks (tasks s) (filterStatus s) (searchQuery s) (sortBy s);
     filterStatus := filterStatus s; sortBy := sortBy s;
     searchQuery := searchQuery s |}.

(** The summary footer and the empty-list message of a render. *)
Definition footer (s : State) : option (nat * nat) :=
  TaskList.footer (tasks s) (filteredTasks s).

Definition emptyMessage (s : State) : option string :=
  TaskListView.emptyMessage (tasks s) (filteredTasks s).

End Component.
End TaskListComponent.

(** ** ARCHITECTURE.md: HTTP polling fallback *)

Module TaskPoller.

(** What the poller reads of a fetched task; [progress = None] when the
    field is missing. *)
Record Task := { progress : option Z; status : string }.

(** [interval] is [true] while the timer whose handle is in
    [this.interval] is installed; [start] overwrites the handle without
    clearing the timer it named, which keeps firing out of the reach of
    [stop]: [leaked] counts such timers.  [in_flight] counts the fetches
    started and not yet answered; [onProgress] and [onComplete] list the
    calls made, oldest first. *)
Record t := {
  lastProgress : Z;
  interval : bool;
  leaked : nat;
  in_flight : nat;
  onProgress : list Task;
  onComplete : list Task
}.

Definition new : t :=
  {| lastProgress := 0; interval := false; leaked := 0; in_flight := 0;
     onProgress := []; onComplete := [] |}.

Definition start (p : t) : t :=
  {| lastProgress := lastProgress p; interval := true;
     leaked := (if interval p then S (leaked p) else leaked p);
     in_flight := in_flight p;
     onProgress := onProgress p; onComplete := onComplete p |}.

Definition stop (p : t) : t :=
  {| lastProgress := lastProgress p; interval := false;
     leaked := leaked p; in_flight := in_flight p;
     onProgress := onProgress p; onComplete := onComplete p |}.

(** Some timer of the poller is installed. *)
Definition ticking (p : t) : bool := interval p || (0 <? leaked p)%nat.

(** An installed timer fires: the callback starts a fetch. *)
Definition tick (p : t) : t :=
  if ticking p then
    {| lastProgress := lastProgress p; interval := interval p; leaked := leaked p;
       in_flight := S (in_flight p);
       onProgress := onProgress p; onComplete := onComplete p |}
  else p.

Definition terminal (s : string) : bool :=
  Js.includes ["completed"; "failed"; "cancelled"] s.

(** A fetch is answered with [task]: the rest of the callback runs. *)
Definition answer (task : Task) (p : t) : t :=
  match in_flight p with
  | O => p
  | S n =>
      let p1 :=
        match progress task with
        | Some v =>
            if (lastProgress p <? v)%Z then
              {| lastProgress := v; interval := interval p; leaked := leaked p; in_flight := n;
                 onProgress := (onProgress p ++ [task])%list;
                 onComplete := onComplete p |}
            else
              {| lastProgress := lastProgress p; interval := interval p; leaked := leaked p;
                 in_flight := n;
                 onProgress := onProgress p; onComplete := onComplete p |}
        | None =>
            {| lastProgress := lastProgress p; interval := interval p; leaked := leaked p;
               in_flight := n;
               onProgress := onProgress p; onComplete := onComplete p |}
        end in
      if terminal (status task) then
        let p2 := stop p1 in
        {| lastProgress := lastProgress p2; interval := interval p2; leaked := leaked p2;
           in_flight := in_flight p2;
           onProgress := onProgress p2;
           onComplete := (onComplete p2 ++ [task])%list |}
      else p1
  end.

(** A fetch fails (the promise rejects): the callback ends there. *)
Definition fail (p : t) : t :=
  {| lastProgress := lastProgress p; interval := interval p; leaked := leaked p;
     in_flight := pred (in_flight p);
     onProgress := onProgress p; onComplete := onComplete p |}.

Inductive Event := Start | Stop | Tick | Answer (task : Task) | Fail.

Definition step (p : t) (e : Event) : t :=
  match e with
  | Start => start p
  | Stop => stop p
  | Tick => tick p
  | Answer task => answer task p
  | Fail => fail p
  end.

Definition run (evs : list Event) (p : t) : t := foldl step p evs.

Definition is_start (e : Event) : bool :=
  match e with Start => true | _ => false end.

(** The progress values handed to [onProgress], oldest first. *)
Definition reported (p : t) : list Z :=
  omap progress (onProgress p).

End TaskPoller.

(** ** ARCHITECTURE.md: WebSocket reconnection *)

Module Reconnect.

Definition reconnectDelays : list Z := [1000; 2000; 5000; 10000; 30000]%Z.

(** What the error handler does: [setTimeout(connectWebSocket, delay)],
    where [delay = None] would be an undefined delay, or
    [fallbackToPolling()]. *)
Inductive Action := SetTimeout (delay : option Z) | FallbackToPolling.

(** [ws.onerror], on the state [reconnectAttempt]. *)
Definition onerror (reconnectAttempt : nat) : nat * Action :=
  if (reconnectAttempt <? length reconnectDelays)%nat then
    (S reconnectAttempt, SetTimeout (reconnectDelays !! reconnectAttempt))
  else (reconnectAttempt, FallbackToPolling).

(** [ws.onopen] *)
Definition onopen (reconnectAttempt : nat) : nat := 0%nat.

Inductive Event := Error | Open.

Definition step (st : nat * list Action) (e : Event) : nat * list Action :=
  match e with
  | Error => let '(n, a) := onerror st.1 in (n, (st.2 ++ [a])%list)
  | Open => (onopen st.1, st.2)
  end.

(** The attempt counter and the actions taken, oldest first. *)
Definition run (evs : list Event) (reconnectAttempt : nat) : nat * list Action :=
  foldl step (reconnectAttempt, []) evs.

(** The actions of [k] errors in a row, counted from a fresh connection:
    the first delays of the list, then fallbacks. *)
Definition errors_in_a_row (k : nat) : list Action :=
  ((SetTimeout ∘ Some <$> take k reconnectDelays)
   ++ replicate (k - length reconnectDelays) FallbackToPolling)%list.

End Reconnect.

(** ** ARCHITECTURE.md: the updates a batcher was given *)

Module BatcherTrace.
Import UpdateBatcher.

(** The updates passed to [addUpdate] in a sequence of events, in order. *)
Definition added {Update} (evs : list (Event Update)) : list Update :=
  omap (λ e, match e with AddUpdate u => Some u | _ => None end) evs.

Definition is_start {Update} (e : Event Update) : bool :=
  match e with Start => true | _ => false end.

End BatcherTrace.

(** ** ARCHITECTURE.md: the retry budget of a record *)

Module RetryBudget.
Import Lifecycle.

(** The retry count stays within the budget, read as at least 1; a task
    that can still be worked on has not used the budget up. *)
Definition within_budget (t : Task) : Prop :=
  (0 ≤ retry_count t ≤ Z.max (max_retries t) 1)%Z
  ∧ (status t = QUEUED ∨ status t = PROCESSING →
     (retry_count t < Z.max (max_retries t) 1)%Z).

End RetryBudget.

(** * Properties *)

(** ** JavaScript primitives *)

Lemma includes_elem_of (l : list string) (x : string) :
  Js.includes l x = true ↔ x ∈ l.
Proof.
  unfold Js.includes. rewrite existsb_exists. split.
  - intros (y & Hy & Heq). apply String.eqb_eq in Heq. subst.
    by apply list_elem_of_In.
  - intros Hx. exists x. split; [by apply list_elem_of_In | apply String.eqb_refl].
Qed.

Lemma includes_not_elem_of (l : list string) (x : string) :
  Js.includes l x = false ↔ x ∉ l.
Proof.
  rewrite <- includes_elem_of. destruct (Js.includes l x); split; try done.
Qed.

(** ** Upload validation *)

Section VideoUploadFacts.
Context `{JsString}.
Import VideoUpload.

(** [split] and [after_last_dot] cut a name at the same place. *)
Lemma split_after_last_dot (name : string) :
  (after_last_dot name = None ∧ Js.split "." name = [name])
  ∨ (∃ ext pre, after_last_dot name = Some ext
       ∧ Js.split "." name = (pre ++ [ext])%list ∧ pre ≠ []).
Proof.
  induction name as [| a name IH]; [by left |].
  cbn [after_last_dot Js.split].
  destruct IH as [[Hn Hs] | (ext & pre & He & Hs & Hp)].
  - rewrite Hn, Hs. destruct (Ascii.eqb a ".").
    + right. by exists name, [EmptyString].
    + by left.
  - rewrite He, Hs. right. destruct (Ascii.eqb a ".").
    + by exists ext, (EmptyString :: pre).
    + destruct pre as [| p pre]; [done |]. by exists ext, (String a p :: pre).
Qed.

(** The text after the last dot is what it says: the name is a stem, a
    dot and the extension, and the extension has no dot. *)
Lemma after_last_dot_Some (name ext : string) :
  after_last_dot name = Some ext →
  (∃ stem, name = stem ++ "." ++ ext) ∧ after_last_dot ext = None.
Proof.
  revert ext. induction name as [| a name IH]; [done |].
  intros ext. cbn [after_last_dot].
  destruct (after_last_dot name) as [e |] eqn:He.
  - intros [= <-]. destruct (IH e eq_refl) as [[stem ->] Hn].
    split; [by exists (String a stem) | done].
  - destruct (Ascii.eqb_spec a ".") as [-> | _]; [| done].
    intros [= <-]. split; [by exists EmptyString | done].
Qed.

(** The extension the code computes is the extension of the name. *)
Lemma fileExtension_extension (file : File.t) :
  fileExtension file = extension (File.name file).
Proof.
  unfold fileExtension, extension, Js.pop.
  destruct (split_after_last_dot (File.name file))
    as [[-> ->] | (ext & pre & -> & -> & _)]; [done |].
  by rewrite last_snoc.
Qed.

Lemma validateFile_valid_iff (file : File.t) :
  isValid (validateFile file) = true ↔ ¬ malformed file.
Proof.
  unfold validateFile, malformed. rewrite <- fileExtension_extension.
  destruct (Js.includes ALLOWED_VIDEO_TYPES (File.type file)) eqn:Ht; cbn [isValid negb].
  2: { apply includes_not_elem_of in Ht. split; [intros [=] | tauto]. }
  apply includes_elem_of in Ht.
  destruct (Js.includes ALLOWED_EXTENSIONS (fileExtension file)) eqn:He; cbn [isValid negb].
  2: { apply includes_not_elem_of in He. split; [intros [=] | tauto]. }
  apply includes_elem_of in He.
  change MAX_FILE_SIZE with (2 * 1024 ^ 3)%N.
  destruct (N.ltb_spec (2 * 1024 ^ 3) (File.size file)); cbn [isValid negb].
  { split; [intros [=] | tauto]. }
  destruct (N.eqb_spec (File.size file) 0); cbn [isValid negb].
  { split; [intros [=] | tauto]. }
  split; [| reflexivity]. intros _ [?|[?|[?|?]]]; [tauto | tauto | lia | tauto].
Qed.

Lemma validateFile_error_iff (file : File.t) :
  error (validateFile file) = None ↔ isValid (validateFile file) = true.
Proof.
  unfold validateFile.
  repeat (match goal with |- context [if ?b then _ else _] => destruct b end;
          simpl; try done).
Qed.

(** C4 (amended): [validateFile] answers [isValid = false] with an error
    message exactly for the malformed files (MIME type not allowed,
    extension not allowed, size above 2 GiB, or size 0), where the
    extension is a dot and the lower-cased text after the last dot of the
    name, or the lower-cased whole name when it has no dot; and
    [isValid = true] with [error = null] for every other file; and
    [handleFileSelect] starts the upload of the first selected file exactly
    when that file is not malformed, sending nothing otherwise. *)
Theorem validateFile_rejects_exactly_malformed (file : File.t) :
  (isValid (validateFile file) = false ∧ error (validateFile file) ≠ None
   ↔ malformed file)
  ∧ (¬ malformed file ↔ validateFile file = {| isValid := true; error := None |})
  ∧ (∀ rest s,
       (¬ malformed file ↔
        upload_started file s (handleFileSelect (Some (file :: rest)) s))
       ∧ (malformed file →
          sent (handleFileSelect (Some (file :: rest)) s) = sent s
          ∧ st_error (handleFileSelect (Some (file :: rest)) s)
            = error (validateFile file)))
  ∧ (∀ s, handleFileSelect None s = s ∧ handleFileSelect (Some []) s = s).
Proof.
  pose proof (validateFile_valid_iff file) as Hv.
  pose proof (validateFile_error_iff file) as He.
  assert (Hdec : malformed file ∨ ¬ malformed file).
  { destruct (isValid (validateFile file)); [right; tauto | left].
    destruct (decide (malformed file)) as [|Hn]; [done |].
    apply Hv in Hn. done. }
  split; [| split; [| split]].
  - split.
    + intros [Hf _] . destruct Hdec as [|Hn]; [done |].
      apply Hv in Hn. congruence.
    + intros Hm. assert (isValid (validateFile file) = false) as Hf.
      { destruct (isValid (validateFile file)); [| done]. by destruct (proj1 Hv). }
      split; [done |]. intros Hnone. apply He in Hnone. congruence.
  - split.
    + intros Hn. apply Hv in Hn. pose proof (proj2 He Hn) as Hnone.
      destruct (validateFile file); simpl in *; congruence.
    + intros Heq. apply Hv. by rewrite Heq.
  - intros rest s. unfold handleFileSelect, upload_started.
    destruct (isValid (validateFile file)) eqn:Hvalid; simpl.
    + split; [| intros Hm; by destruct (proj1 Hv)].
      split; [done | intros _; by apply Hv].
    + split.
      * split; [intros Hn; apply Hv in Hn; done |].
        intros [Hs _]. apply (f_equal length) in Hs.
        rewrite length_app in Hs. simpl in Hs. lia.
      * done.
  - done.
Qed.

(** C9: the MIME-type check comes first: a file whose MIME type is not an
    allowed video type gets the "Invalid file type" error whatever its
    extension (and its size). *)
Theorem mime_check_takes_precedence (file : File.t) :
  File.type file ∉ ALLOWED_VIDEO_TYPES →
  validateFile file =
    {| isValid := false;
       error := Some "Invalid file type. Allowed types: .mp4, .webm, .mov, .avi, .mkv" |}.
Proof.
  intros Ht. apply includes_not_elem_of in Ht.
  unfold validateFile. rewrite Ht. reflexivity.
Qed.

End VideoUploadFacts.

(** Against C4 as stated: the name mp4 has no dot, hence no extension,
    and yet the file passes the validation. *)
Lemma dotless_name_passes_the_extension_check :
  let file := File.mk "mp4" "video/mp4" 1 in
  VideoUpload.after_last_dot (File.name file) = None
  ∧ ¬ VideoUpload.has_allowed_extension (File.name file)
  ∧ VideoUpload.validateFile file
    = {| VideoUpload.isValid := true; VideoUpload.error := None |}.
Proof.
  split; [reflexivity |]. split; [| reflexivity].
  intros (ext & Hext & _). discriminate Hext.
Qed.

(** A file with an allowed extension and an empty MIME type. *)
Lemma mime_check_takes_precedence_witness :
  (File.type (File.mk "holiday.mp4" "" 1048576) ∉ VideoUpload.ALLOWED_VIDEO_TYPES)
  ∧ VideoUpload.fileExtension (File.mk "holiday.mp4" "" 1048576)
    ∈ VideoUpload.ALLOWED_EXTENSIONS
  ∧ VideoUpload.validateFile (File.mk "holiday.mp4" "" 1048576) =
      {| VideoUpload.isValid := false;
         VideoUpload.error :=
           Some "Invalid file type. Allowed types: .mp4, .webm, .mov, .avi, .mkv" |}.
Proof.
  assert (Hn : File.type (File.mk "holiday.mp4" "" 1048576)
               ∉ VideoUpload.ALLOWED_VIDEO_TYPES).
  { apply includes_not_elem_of. reflexivity. }
  split; [exact Hn |].
  split; [apply includes_elem_of; reflexivity |].
  exact (mime_check_takes_precedence (File.mk "holiday.mp4" "" 1048576) Hn).
Defined.

(** ** Task list *)

Lemma filter_submseteq {A} (f : A → bool) (l : list A) : List.filter f l ⊆+ l.
Proof.
  induction l as [|x l IH]; simpl; [constructor |].
  destruct (f x); [by apply submseteq_skip | by apply submseteq_cons].
Qed.

Lemma elem_of_filter_bool {A} (f : A → bool) (l : list A) (x : A) :
  x ∈ List.filter f l ↔ x ∈ l ∧ f x = true.
Proof. rewrite !list_elem_of_In. apply filter_In. Qed.

Lemma insert_sorted_Permutation {A} (cmp : A → A → option Z) (x : A) (l : list A) :
  TaskList.insert_sorted cmp x l ≡ₚ x :: l.
Proof.
  induction l as [|y l IH]; simpl; [done |].
  destruct (_ <=? _)%Z; [done |]. rewrite IH. apply Permutation_swap.
Qed.

Lemma insertion_sort_Permutation {A} (cmp : A → A → option Z) (l : list A) :
  TaskList.insertion_sort cmp l ≡ₚ l.
Proof.
  induction l as [|x l IH]; simpl; [done |].
  rewrite insert_sorted_Permutation. by rewrite IH.
Qed.

#[global] Instance stable_sort : JsArraySort := {|
  sort := @TaskList.insertion_sort;
  sort_Permutation := @insertion_sort_Permutation
|}.

(** Dates written as a year of four digits, the shortest form of the
    ECMAScript date-time string format: midnight UTC of the first of
    January, in milliseconds ([86400000 * DayFromYear(y)]); any other
    string is read as an invalid date. *)
#[global] Instance year_dates : JsDate := {|
  dateValue := λ s,
    if (String.length s =? 4)%nat then
      (λ y, 86400000 * (365 * (y - 1970) + (y - 1969) `div` 4
                         - (y - 1901) `div` 100 + (y - 1601) `div` 400))%Z
      <$> (Z.of_uint <$> NilEmpty.uint_of_string s)
    else None
|}.

Section TaskListFacts.
Context `{JsString} `{JsArraySort} `{JsDate}.
Import TaskList.

Lemma filteredTasks_submseteq tasks filterStatus searchQuery sortBy :
  filteredTasks tasks filterStatus searchQuery sortBy ⊆+ tasks.
Proof.
  unfold filteredTasks.
  rewrite sort_Permutation.
  destruct (truthy _), (negb _); try done;
    repeat (etrans; [apply filter_submseteq |]); done.
Qed.

(** What the effect computes is a rearrangement of a sub-multiset of the
    input tasks that respects the status filter and, for a query that is
    not blank, the search. *)
Lemma filteredTasks_filters_and_counts
    (tasks : list Task) (filterStatus searchQuery sortBy : string) :
  let shown := filteredTasks tasks filterStatus searchQuery sortBy in
  shown ⊆+ tasks
  ∧ (∀ task, task ∈ shown →
       (filterStatus ≠ "all" → status task = filterStatus)
       ∧ (trim searchQuery ≠ "" → matchesSearch searchQuery task = true))
  ∧ (∀ X Y, footer tasks shown = Some (X, Y) → (X ≤ Y)%nat).
Proof.
  intros shown. pose proof (filteredTasks_submseteq tasks filterStatus searchQuery sortBy) as Hsub.
  fold shown in Hsub. split; [done |]. split.
  - intros task Hin. unfold shown, filteredTasks in Hin.
    rewrite sort_Permutation in Hin. split.
    + intros Hne. apply String.eqb_neq in Hne. rewrite Hne in Hin. simpl in Hin.
      destruct (truthy _).
      * apply elem_of_filter_bool in Hin as [Hin _].
        apply elem_of_filter_bool in Hin as [_ Hs]. by apply String.eqb_eq in Hs.
      * apply elem_of_filter_bool in Hin as [_ Hs]. by apply String.eqb_eq in Hs.
    + intros Hne. apply String.eqb_neq in Hne. unfold truthy in Hin.
      rewrite Hne in Hin. simpl in Hin.
      by apply elem_of_filter_bool in Hin as [_ Hs].
  - intros X Y. unfold footer. destruct (_ <? _)%nat; [| done].
    intros [= <- <-]. by apply submseteq_length.
Qed.

(** C10 (amended): once the effect has run for the current tasks and
    controls, the list displayed is a rearrangement of a sub-multiset of
    the tasks; every task shown has the selected status unless the filter
    is 'all', and contains the lower-cased query in its lower-cased name or
    id whenever the trimmed query is not empty; and the footer
    "Showing X of Y" has X <= Y.  The first render shows all the tasks. *)
Theorem filteredTasks_sub_multiset_of_tasks (s : TaskListComponent.State) :
  let s' := TaskListComponent.effect s in
  let shown := TaskListComponent.filteredTasks s' in
  TaskListComponent.tasks s' = TaskListComponent.tasks s
  ∧ shown ⊆+ TaskListComponent.tasks s
  ∧ (∀ task, task ∈ shown →
       (TaskListComponent.filterStatus s ≠ "all" →
        status task = TaskListComponent.filterStatus s)
       ∧ (trim (TaskListComponent.searchQuery s) ≠ "" →
          matchesSearch (TaskListComponent.searchQuery s) task = true))
  ∧ (∀ X Y, TaskListComponent.footer s' = Some (X, Y) → (X ≤ Y)%nat)
  ∧ (∀ tasks0,
       TaskListComponent.filteredTasks (TaskListComponent.mount tasks0) = tasks0).
Proof.
  intros s' shown. split; [done |].
  destruct (filteredTasks_filters_and_counts
              (TaskListComponent.tasks s) (TaskListComponent.filterStatus s)
              (TaskListComponent.searchQuery s) (TaskListComponent.sortBy s))
    as (Hsub & Hin & Hfoot).
  split; [exact Hsub |]. split; [exact Hin |]. split; [exact Hfoot | done].
Qed.

End TaskListFacts.

(** Against C10 as stated.  With the filter 'all' and a query of one
    blank, the search is not applied: a task whose name and id contain no
    blank is shown.  And the render that follows a change of the tasks
    still shows the list of the effect before: with two tasks shown and
    one task left, the footer reads "Showing 2 of 1". *)
Lemma shown_list_escapes_search_and_count :
  let task := {| TaskList.id := "42"; TaskList.name := "intro";
                 TaskList.status := "pending"; TaskList.progress := None;
                 TaskList.created_at := "1702796400000" |} in
  (¬ (∀ tasks filterStatus searchQuery sortBy t,
        t ∈ TaskList.filteredTasks tasks filterStatus searchQuery sortBy →
        (filterStatus ≠ "all" → TaskList.status t = filterStatus)
        ∧ TaskList.matchesSearch searchQuery t = true)
   ∧ TaskList.filteredTasks [task] "all" " " "created_at" = [task]
   ∧ TaskList.matchesSearch " " task = false
   ∧ TaskListComponent.footer
       (TaskListComponent.render (TaskListComponent.NewTasks [task])
          (TaskListComponent.effect (TaskListComponent.mount [task; task])))
     = Some (2, 1)%nat).
Proof.
  intros task. split; [| split; [| split]; reflexivity].
  intros Hall. destruct (Hall [task] "all" " " "created_at" task) as [_ Hm].
  - vm_compute. left.
  - vm_compute in Hm. discriminate Hm.
Qed.

(** ** Retry delay *)

Section RetryFacts.
Import Retry.
Local Open Scope Q_scope.

Lemma pow2_pos (k : Z) : 0 < 2 ^ k.
Proof. by apply Qpower_0_lt. Qed.

Lemma pow2_small (n : Z) : (n <= 9)%Z → 2 ^ (n - 1) <= 256.
Proof.
  intros Hn. change 256 with (2 ^ 8).
  apply Qpower_le_compat_l; [lia | discriminate].
Qed.

Lemma pow2_large (n : Z) : (10 <= n)%Z → 512 <= 2 ^ (n - 1).
Proof.
  intros Hn. change 512 with (2 ^ 9).
  apply Qpower_le_compat_l; [lia | discriminate].
Qed.

Lemma scaled_bounds (x j : Q) :
  0 < x → 4 # 5 <= j → j <= 6 # 5 → (4 # 5) * x <= x * j ∧ x * j <= (6 # 5) * x.
Proof.
  intros Hx Hlo Hhi. split.
  - rewrite (Qmult_comm (4 # 5)). apply Qmult_le_l; done.
  - rewrite (Qmult_comm (6 # 5)). apply Qmult_le_l; done.
Qed.

Lemma capped_backoff_interval (n : Z) (jitter : Q) :
  (1 <= n)%Z → 4 # 5 <= jitter → jitter <= 6 # 5 →
  let delay := Qmin (2 ^ (n - 1) * jitter) 300 in
  let capped := Qmin 300 (2 ^ (n - 1)) in
  (∃ j, 4 # 5 <= j ∧ j <= 6 # 5 ∧ delay == capped * j)
  ∧ ((4 # 5) * capped <= delay ∧ delay <= (6 # 5) * capped)
  ∧ (300 < 2 ^ (n - 1) → 240 <= delay ∧ delay <= 360).
Proof.
  intros Hn Hlo Hhi delay capped. subst delay capped.
  pose proof (pow2_pos (n - 1)) as Hpos.
  destruct (scaled_bounds (2 ^ (n - 1)) jitter Hpos Hlo Hhi) as [Hl Hh].
  destruct (Z.le_gt_cases n 9) as [Hsmall | Hlarge].
  - pose proof (pow2_small n Hsmall) as Hx.
    assert (Hc : Qmin 300 (2 ^ (n - 1)) == 2 ^ (n - 1)) by (apply Q.min_r; lra).
    destruct (Q.min_spec (2 ^ (n - 1) * jitter) 300) as [[Hlt Hd] | [Hge Hd]].
    + split; [exists jitter; split; [done | split; [done |]] |].
      * rewrite Hd, Hc. reflexivity.
      * rewrite Hd, Hc. split; [split; done | lra].
    + split; [exists (300 / 2 ^ (n - 1)); split; [| split] |].
      * apply Qle_shift_div_l; [done | lra].
      * apply Qle_shift_div_r; [done | lra].
      * rewrite Hd, Hc. field. lra.
      * rewrite Hd, Hc. split; [split |]; lra.
  - pose proof (pow2_large n ltac:(lia)) as Hx.
    assert (Hc : Qmin 300 (2 ^ (n - 1)) == 300) by (apply Q.min_l; lra).
    assert (Hd : Qmin (2 ^ (n - 1) * jitter) 300 == 300) by (apply Q.min_r; lra).
    split; [exists 1; split; [discriminate | split; [discriminate |]] |].
    + rewrite Hd, Hc. ring.
    + rewrite Hd, Hc. split; [split |]; lra.
Qed.

(** C3 (amended): for every retry attempt n from 1 to 1024 and every
    jitter drawn from [0.8, 1.2], a delay is computed and it is
    min(300, 2^(n-1)) * j for some j in [0.8, 1.2]; that is, it lies in
    [0.8, 1.2] * min(300, 2^(n-1)), and in [240, 360] once 2^(n-1) exceeds
    300. *)
Theorem retry_delay_within_jitter_of_capped_backoff (n : N) (jitter : Q) :
  (1 <= n <= 1024)%N → 4 # 5 <= jitter → jitter <= 6 # 5 →
  ∃ delay, calculate_retry_delay n jitter = Some delay
    ∧ let capped := Qmin 300 (2 ^ (Z.of_N n - 1)) in
      (∃ j, 4 # 5 <= j ∧ j <= 6 # 5 ∧ delay == capped * j)
      ∧ ((4 # 5) * capped <= delay ∧ delay <= (6 # 5) * capped)
      ∧ (300 < 2 ^ (Z.of_N n - 1) → 240 <= delay ∧ delay <= 360).
Proof.
  intros [Hn1 Hn2] Hlo Hhi. unfold calculate_retry_delay.
  destruct (N.leb_spec 1025 n) as [? | _]; [lia |].
  eexists. split; [reflexivity |].
  apply (capped_backoff_interval (Z.of_N n) jitter); [lia | done | done].
Qed.

(** The tenth attempt with no jitter: the cap applies. *)
Lemma retry_delay_within_jitter_of_capped_backoff_witness :
  ∃ delay, calculate_retry_delay 10 1 = Some delay
    ∧ 240 <= delay ∧ delay <= 360.
Proof.
  destruct (retry_delay_within_jitter_of_capped_backoff 10 1) as (delay & Hd & _ & _ & Hcap).
  - lia.
  - unfold Qle; simpl; lia.
  - unfold Qle; simpl; lia.
  - exists delay. split; [exact Hd |]. apply Hcap. reflexivity.
Defined.

(** Against C3 as stated: from the 1025th attempt on no delay is
    computed at all (the multiplication raises OverflowError). *)
Lemma retry_delay_overflows_at_1025 :
  calculate_retry_delay 1025 1 = None
  ∧ ¬ (∀ (n : N) (jitter : Q),
         (1 <= n)%N → 4 # 5 <= jitter → jitter <= 6 # 5 →
         ∃ delay, calculate_retry_delay n jitter = Some delay
           ∧ (4 # 5) * Qmin 300 (2 ^ (Z.of_N n - 1)) <= delay
           ∧ delay <= (6 # 5) * Qmin 300 (2 ^ (Z.of_N n - 1))).
Proof.
  split; [reflexivity |]. intros Hall.
  destruct (Hall 1025%N 1) as (delay & Hd & _); [lia | discriminate | discriminate |].
  discriminate Hd.
Qed.

End RetryFacts.

(** ** Update batcher *)

Section BatcherFacts.
Context {Update : Type}.
Import UpdateBatcher.
Local Open Scope list_scope.
Implicit Types (b : t Update) (u : Update) (us : list Update).

Lemma run_app evs1 evs2 b : run (evs1 ++ evs2) b = run evs2 (run evs1 b).
Proof. unfold run. apply foldl_app. Qed.

Lemma run_adds us u b :
  run (AddUpdate <$> (us ++ [u])) b = addUpdate u (run (AddUpdate <$> us) b).
Proof. by rewrite fmap_app, run_app. Qed.

Lemma run_adds_frame us b :
  interval (run (AddUpdate <$> us) b) = interval b
  ∧ delivered (run (AddUpdate <$> us) b) = delivered b.
Proof.
  revert b. induction us as [|u us IH]; intros b; [done |].
  change (run (AddUpdate <$> u :: us) b)
    with (run (AddUpdate <$> us) (addUpdate u b)).
  destruct (IH (addUpdate u b)) as [-> ->]. done.
Qed.

Lemma ticks_on_empty_queue (n : nat) b :
  queue b = [] → run (replicate n Tick) b = b.
Proof.
  intros Hq. induction n as [|n IH]; [done |].
  change (run (replicate (S n) Tick) b) with (run (replicate n Tick) (tick b)).
  assert (tick b = b) as ->; [| exact IH].
  unfold tick. rewrite Hq. by destruct (ticking b).
Qed.

Lemma delivered_at_most_one_per_tick (evs : list (Event Update)) b :
  (length (delivered (run evs b))
   ≤ length (delivered b) + length (List.filter is_tick evs))%nat.
Proof.
  revert b. induction evs as [|e evs IH]; intros b; [simpl; lia |].
  change (run (e :: evs) b) with (run evs (step b e)).
  etrans; [apply IH |]. destruct e; simpl; try lia.
  unfold tick. destruct (ticking b); [| lia].
  destruct (queue b); simpl; [lia |]. rewrite length_app. simpl. lia.
Qed.

(** C6: with the timer running, any updates that arrive between two
    firings collapse: the firing delivers exactly one update, the last
    one; the earlier ones are gone (the queue is empty afterwards and
    further firings deliver nothing); and over any sequence of events
    there are never more deliveries than firings. *)
Theorem updates_in_one_interval_collapse_to_last b us u :
  let b1 := run ((AddUpdate <$> (us ++ [u])) ++ [Tick]) (start b) in
  delivered b1 = (delivered b ++ [u])%list
  ∧ queue b1 = []
  ∧ (∀ n, delivered (run (replicate n Tick) b1) = delivered b1)
  ∧ (∀ evs b', (length (delivered (run evs b'))
                ≤ length (delivered b') + length (List.filter is_tick evs))%nat).
Proof.
  intros b1. subst b1. rewrite run_app, run_adds.
  destruct (run_adds_frame us (start b)) as [Hi Hd].
  set (b0 := run (AddUpdate <$> us) (start b)) in *.
  assert (Ht : run [Tick] (addUpdate u b0)
               = {| queue := []; batchIntervalMs := batchIntervalMs b0;
                    interval := true; leaked := leaked b0;
                    delivered := (delivered b ++ [u])%list |}).
  { unfold run. simpl. unfold tick, ticking. simpl. rewrite Hi. simpl. by rewrite Hd. }
  rewrite Ht. split; [done |]. split; [done |]. split.
  - intros n. by rewrite ticks_on_empty_queue.
  - apply delivered_at_most_one_per_tick.
Qed.

End BatcherFacts.

(** ** Task lifecycle *)

Section LifecycleFacts.
Import Lifecycle Orchestrator.
Local Open Scope Z_scope.
Implicit Types (σ : System) (t : Task) (tid : string) (op : Op).

Lemma leased_Some now tid worker σ t :
  leased now tid worker σ = Some t →
  tasks σ !! tid = Some t ∧ status t = PROCESSING
  ∧ holds now tid worker (locks σ) = true.
Proof.
  unfold leased. destruct (tasks σ !! tid) as [t0|]; [| done].
  destruct (bool_decide _) eqn:Hs; [| done].
  destruct (holds _ _ _ _) eqn:Hh; [| done].
  intros [= ->]. by apply bool_decide_eq_true in Hs.
Qed.

Lemma settle_failure_tasks tid jitter t' σ :
  tasks (settle_failure tid jitter t' σ) = <[tid := t']> (tasks σ).
Proof.
  unfold settle_failure.
  destruct (status t'); try done. by destruct (Retry.calculate_retry_delay _ _).
Qed.

Lemma settle_failure_locks tid jitter t' σ :
  locks (settle_failure tid jitter t' σ) = delete tid (locks σ).
Proof.
  unfold settle_failure.
  destruct (status t'); try done. by destruct (Retry.calculate_retry_delay _ _).
Qed.

(** What an operation does to the table of records: nothing, a new QUEUED
    record under a fresh identifier, or one [transition] of one record. *)
Lemma exec_tasks_cases op σ :
  tasks (exec op σ).2 = tasks σ
  ∨ (∃ tid max, tasks σ !! tid = None
       ∧ tasks (exec op σ).2 = <[tid := new_task max]> (tasks σ))
  ∨ (∃ tid t t', tasks σ !! tid = Some t ∧ transition t t'
       ∧ tasks (exec op σ).2 = <[tid := t']> (tasks σ)).
Proof.
  destruct op as [tid max | now tid w | now tid w | now tid w p | now tid w
                 | now tid w cls code j | tid | tid | now tid j | tid seq payload];
    simpl.
  - unfold submit. destruct (tasks σ !! tid) eqn:Ht; [by left |].
    destruct (max <? 0); [by left |]. right; left. by exists tid, max.
  - unfold acquire. destruct (tasks σ !! tid) as [t|] eqn:Ht; [| by left].
    destruct (decide _) as [Hq|]; [| by left].
    destruct (set_nx_ex _ _ _ _); [| by left].
    right; right. exists tid, t, (on_acquired now t).
    split; [done |]. split; [by constructor | done].
  - unfold renewLease. destruct (holds _ _ _ _); by left.
  - unfold reportProgress. destruct (leased _ _ _ _) as [t|] eqn:Hl; [| by left].
    apply leased_Some in Hl as (Ht & Hs & _).
    destruct (_ && _) eqn:Hp; [| by left].
    right; right. exists tid, t, (with_progress p t).
    split; [done |]. split; [| done].
    apply andb_prop in Hp as [Hp ?%Z.leb_le]. apply andb_prop in Hp as [?%Z.leb_le ?%Z.leb_le].
    by constructor.
  - unfold reportSuccess. destruct (leased _ _ _ _) as [t|] eqn:Hl; [| by left].
    apply leased_Some in Hl as (Ht & Hs & _).
    right; right. exists tid, t, (on_completed now t).
    split; [done |]. split; [by constructor | done].
  - unfold reportFailure. destruct (leased _ _ _ _) as [t|] eqn:Hl; [| by left].
    apply leased_Some in Hl as (Ht & Hs & _).
    right; right. exists tid, t, (on_processing_error cls code t).
    split; [done |]. split; [by constructor |]. apply settle_failure_tasks.
  - unfold cancel. destruct (tasks σ !! tid) as [t|] eqn:Ht; [| by left].
    destruct (status t) eqn:Hs; try by left.
    + right; right. exists tid, t, (on_cancelled t).
      split; [done |]. split; [constructor; auto | done].
    + right; right. exists tid, t, (on_cancelled t).
      split; [done |]. split; [constructor; auto | done].
  - unfold requeue. destruct (tasks σ !! tid) as [t|] eqn:Ht; [| by left].
    destruct (decide _) as [Hf|]; [| by left].
    right; right. exists tid, t, (on_requeued t).
    split; [done |]. split; [by constructor | done].
  - unfold reap. destruct (tasks σ !! tid) as [t|] eqn:Ht; [| by left].
    destruct (bool_decide _) eqn:Hs; simpl; [| by left].
    apply bool_decide_eq_true in Hs.
    destruct (negb _); [| by left].
    right; right. exists tid, t, (on_processing_error TRANSIENT "WORKER_TIMEOUT" t).
    split; [done |]. split; [by constructor |]. apply settle_failure_tasks.
  - unfold save. destruct (checkpoints σ !! tid) as [[stored old]|]; [| by left].
    destruct (seq <=? stored); by left.
Qed.

Lemma transition_edge t t' :
  transition t t' → status t' = status t ∨ edge (status t) (status t') = true.
Proof.
  destruct 1 as [now t Hs | p t Hs Hp Hm | now t Hs | cls code t Hs | t Hs | t Hs];
    simpl; try rewrite Hs; auto.
  - destruct cls; simpl; [| by right |]; destruct (_ <? _); simpl; by right.
  - destruct Hs as [-> | ->]; by right.
Qed.

(** C1 (amended): under every operation every record stays in the table
    and its status either stays or moves along QUEUED -> PROCESSING,
    PROCESSING -> COMPLETED, PROCESSING -> FAILED, PROCESSING -> QUEUED,
    QUEUED or PROCESSING -> CANCELLED, or FAILED -> QUEUED (the operator's
    requeue of a dead-lettered task); so COMPLETED and CANCELLED are never
    left, and CANCELLED is never entered from COMPLETED or FAILED. *)
Theorem status_moves_only_along_lifecycle_edges op σ tid t :
  tasks σ !! tid = Some t →
  ∃ t', tasks (exec op σ).2 !! tid = Some t'
    ∧ (status t' = status t ∨ edge (status t) (status t') = true)
    ∧ (status t = COMPLETED → status t' = COMPLETED)
    ∧ (status t = CANCELLED → status t' = CANCELLED)
    ∧ (status t = FAILED → status t' = FAILED ∨ status t' = QUEUED).
Proof.
  intros Ht.
  assert (Hedge : ∀ t', status t' = status t ∨ edge (status t) (status t') = true →
    (status t' = status t ∨ edge (status t) (status t') = true)
    ∧ (status t = COMPLETED → status t' = COMPLETED)
    ∧ (status t = CANCELLED → status t' = CANCELLED)
    ∧ (status t = FAILED → status t' = FAILED ∨ status t' = QUEUED)).
  { intros t' He. split; [done |].
    destruct He as [-> | He]; [by auto |].
    destruct (status t), (status t'); simpl in He; try discriminate;
      repeat split; intros; try discriminate; auto. }
  destruct (exec_tasks_cases op σ) as [-> | [(tid' & max & Hn & ->) | (tid' & t0 & t1 & H0 & Htr & ->)]].
  - exists t. split; [done |]. apply Hedge. by left.
  - exists t. split; [| apply Hedge; by left].
    rewrite lookup_insert_ne; [done | congruence].
  - destruct (decide (tid' = tid)) as [-> | Hne].
    + exists t1. rewrite lookup_insert_eq. split; [done |].
      apply Hedge. assert (t0 = t) as -> by congruence. by apply transition_edge.
    + exists t. rewrite lookup_insert_ne; [| done]. split; [done |].
      apply Hedge. by left.
Qed.

End LifecycleFacts.

Section OrchestratorFacts.
Import Lifecycle Orchestrator.
Local Open Scope Z_scope.
Implicit Types (σ : System) (t : Task) (tid : string) (op : Op).

Lemma reachable_exec_all (ops : list Op) σ :
  reachable σ → reachable (exec_all ops σ).2.
Proof.
  revert σ. induction ops as [|op ops IH]; intros σ Hσ; [done |].
  simpl. pose proof (reachable_exec op σ Hσ) as Hstep.
  destruct (exec op σ) as [r σ'] eqn:He. simpl in Hstep.
  specialize (IH σ' Hstep). by destruct (exec_all ops σ').
Qed.

(** A dead-lettered task that the operator requeues. *)
Lemma status_moves_only_along_lifecycle_edges_witness :
  ∃ t', tasks (exec (Requeue "T1") Scenario.dead_lettered).2 !! "T1" = Some t'
    ∧ (status t' = FAILED ∨ edge FAILED (status t') = true)
    ∧ (FAILED = COMPLETED → status t' = COMPLETED)
    ∧ (FAILED = CANCELLED → status t' = CANCELLED)
    ∧ (FAILED = FAILED → status t' = FAILED ∨ status t' = QUEUED).
Proof.
  exact (status_moves_only_along_lifecycle_edges (Requeue "T1") Scenario.dead_lettered "T1"
           (on_processing_error PERMANENT "UNSUPPORTED_CODEC"
              (on_acquired 0 (new_task 0))) eq_refl).
Defined.

(** Against C1 as stated: a reachable FAILED record is moved to QUEUED by
    [requeue], which is not an edge of the spec's state machine: FAILED
    has an outgoing transition. *)
Lemma failed_record_is_requeued :
  ¬ (∀ op σ tid t t',
       reachable σ → tasks σ !! tid = Some t →
       tasks (exec op σ).2 !! tid = Some t' →
       status t' = status t ∨ spec_edge (status t) (status t') = true)
  ∧ (reachable Scenario.dead_lettered
     ∧ status_of "T1" Scenario.dead_lettered = Some FAILED
     ∧ status_of "T1" (exec (Requeue "T1") Scenario.dead_lettered).2 = Some QUEUED).
Proof.
  assert (Hd : reachable Scenario.dead_lettered)
    by (apply reachable_exec_all; constructor).
  split; [| split; [done | split; reflexivity]].
  intros Hall.
  destruct (Hall (Requeue "T1") Scenario.dead_lettered "T1"
              (on_processing_error PERMANENT "UNSUPPORTED_CODEC"
                 (on_acquired 0 (new_task 0)))
              (on_requeued (on_processing_error PERMANENT "UNSUPPORTED_CODEC"
                 (on_acquired 0 (new_task 0))))
              Hd eq_refl eq_refl) as [Heq | Heq]; discriminate Heq.
Qed.

(** *** Retry budget *)

(** C2, evaluated: a task with [max_retries = 3] whose attempts all fail
    with a RETRIABLE error goes QUEUED -> PROCESSING -> QUEUED twice; the
    third failure takes it to FAILED with [retry_count = 3], and the
    attempts offered after that are refused. *)
Theorem always_failing_task_is_requeued_twice :
  history "T" Scenario.always_failing initial
  = [None; Some QUEUED; Some PROCESSING; Some QUEUED; Some PROCESSING;
     Some QUEUED; Some PROCESSING; Some FAILED]
  ∧ (exec_all Scenario.always_failing initial).1
    = [Ok; Ok; Ok; Ok; Ok; Ok; Ok; AlreadyLeased; LeaseExpired;
       AlreadyLeased; LeaseExpired]
  ∧ (retry_count <$> tasks (exec_all Scenario.always_failing initial).2 !! "T" = Some 3
     ∧ max_retries <$> tasks (exec_all Scenario.always_failing initial).2 !! "T" = Some 3).
Proof. split; [| split; [| split]]; reflexivity. Qed.

(** The same count on the record alone, for any budget: starting from
    [retry_count = 0], the k-th RETRIABLE failure requeues the task exactly
    when k < max_retries. *)
Lemma on_processing_error_requeues_below_budget t code :
  status (on_processing_error RETRIABLE code t)
  = (if retry_count t + 1 <? max_retries t then QUEUED else FAILED)
  ∧ retry_count (on_processing_error RETRIABLE code t) = retry_count t + 1.
Proof. simpl. by destruct (_ <? _). Qed.

(** *** Checkpoints *)

(** C7: a [save] whose sequence number is not strictly greater than the
    stored one answers StaleCheckpoint and leaves the whole state, hence
    the stored payload and sequence number, as it was; a [save] with a
    strictly greater one succeeds and replaces the task's checkpoint,
    leaving the other tasks' checkpoints alone. *)
Theorem stale_checkpoint_leaves_store_unchanged
    σ tid (seq stored : Z) (payload old : string) :
  checkpoints σ !! tid = Some (stored, old) →
  (seq ≤ stored → save tid seq payload σ = (StaleCheckpoint, σ))
  ∧ (stored < seq →
     (save tid seq payload σ).1 = Ok
     ∧ checkpoints (save tid seq payload σ).2 !! tid = Some (seq, payload)
     ∧ ∀ tid', tid' ≠ tid →
         checkpoints (save tid seq payload σ).2 !! tid' = checkpoints σ !! tid').
Proof.
  intros Hc. unfold save. rewrite Hc. split; intros Hs.
  - apply Z.leb_le in Hs. by rewrite Hs.
  - apply Z.leb_gt in Hs. rewrite Hs. simpl. split; [done |]. split.
    + apply lookup_insert_eq.
    + intros tid' Hne. by apply lookup_insert_ne.
Qed.

(** Writes 5 (a duplicate) and 6 against a stored sequence number 5. *)
Lemma stale_checkpoint_leaves_store_unchanged_witness :
  save "T2" 5 "chunk-5-again" Scenario.checkpointed
    = (StaleCheckpoint, Scenario.checkpointed)
  ∧ checkpoints (save "T2" 6 "chunk-6" Scenario.checkpointed).2 !! "T2"
    = Some (6, "chunk-6"%string).
Proof.
  pose proof (stale_checkpoint_leaves_store_unchanged
                Scenario.checkpointed "T2" 5 5 "chunk-5-again" "chunk-5" eq_refl) as [H5 _].
  pose proof (stale_checkpoint_leaves_store_unchanged
                Scenario.checkpointed "T2" 6 5 "chunk-6" "chunk-5" eq_refl) as [_ H6].
  split.
  - apply H5. lia.
  - apply H6. lia.
Defined.

(** *** Progress *)

Lemma transition_progress_consistent t t' :
  transition t t' → progress_consistent t'.
Proof.
  destruct 1 as [now t Hs | p t Hs Hp Hm | now t Hs | cls code t Hs | t Hs | t Hs];
    unfold progress_consistent; simpl; try rewrite Hs; try done.
  destruct cls; simpl; try destruct (_ <? _); simpl; done.
Qed.

Lemma reachable_progress_consistent σ :
  reachable σ → ∀ tid t, tasks σ !! tid = Some t → progress_consistent t.
Proof.
  induction 1 as [| op σ Hσ IH]; intros tid t Ht; [done |].
  destruct (exec_tasks_cases op σ)
    as [Heq | [(tid' & max & Hn & Heq) | (tid' & t0 & t1 & H0 & Htr & Heq)]];
    rewrite Heq in Ht.
  - by eapply IH.
  - destruct (decide (tid' = tid)) as [-> | Hne].
    + rewrite lookup_insert_eq in Ht. by injection Ht as <-.
    + rewrite lookup_insert_ne in Ht; [by eapply IH | done].
  - destruct (decide (tid' = tid)) as [-> | Hne].
    + rewrite lookup_insert_eq in Ht. injection Ht as <-.
      by eapply transition_progress_consistent.
    + rewrite lookup_insert_ne in Ht; [by eapply IH | done].
Qed.

(** C5 (amended): every reachable COMPLETED record has progress 100 and
    every reachable QUEUED record has progress 0; the task list shows 100
    for every completed task and 0 for every failed one, and it shows 100
    exactly when the task is completed or is not failed and carries
    progress 100 itself. *)
Theorem completed_records_carry_progress_100 :
  (∀ σ tid t, reachable σ → tasks σ !! tid = Some t →
     (status t = COMPLETED → progress t = 100)
     ∧ (status t = QUEUED → progress t = 0))
  ∧ (∀ task : TaskList.Task,
       (TaskList.status task = "completed"%string →
        TaskList.getProgressPercentage task = 100)
       ∧ (TaskList.status task = "failed"%string →
          TaskList.getProgressPercentage task = 0)
       ∧ (TaskList.getProgressPercentage task = 100 ↔
          TaskList.status task = "completed"%string
          ∨ (TaskList.status task ≠ "failed"%string
             ∧ TaskList.progress task = Some 100))).
Proof.
  split.
  - intros σ tid t Hσ Ht. by eapply reachable_progress_consistent.
  - intros task. unfold TaskList.getProgressPercentage.
    destruct (String.eqb_spec (TaskList.status task) "completed") as [Hc | Hc].
    { split; [done |]. split; [intros Hf; by rewrite Hf in Hc |].
      split; [by left | done]. }
    destruct (String.eqb_spec (TaskList.status task) "failed") as [Hf | Hf].
    { split; [done |]. split; [done |].
      split; [done | intros [? | [? _]]; done]. }
    split; [done |]. split; [done |].
    destruct (TaskList.progress task) as [p |].
    + destruct (Z.eqb_spec p 0) as [-> | Hp].
      * split; [done | intros [? | [_ [=]]]; done].
      * split; [intros ->; by right | intros [? | [_ [= ->]]]; done].
    + split; [done | intros [? | [_ [=]]]; done].
Qed.

(** The completed task of the scenario, and its entry in the task list. *)
Lemma completed_records_carry_progress_100_witness :
  (progress <$> tasks Scenario.completed !! "T3" = Some 100)
  ∧ TaskList.getProgressPercentage
      {| TaskList.id := "T3"; TaskList.name := "holiday.mp4";
         TaskList.status := "completed"; TaskList.progress := None;
         TaskList.created_at := "1702796400000" |} = 100.
Proof.
  destruct completed_records_carry_progress_100 as [Hrec Hshown].
  split.
  - destruct (Hrec Scenario.completed "T3"
                (on_completed 5 (on_acquired 0 (new_task 3)))
                (reachable_exec_all _ _ reachable_initial) eq_refl) as [Hc _].
    exact (f_equal Some (Hc eq_refl)).
  - apply (proj1 (Hshown _)). reflexivity.
Defined.

(** Against C5 as stated: after [reportProgress 100] the record is still
    PROCESSING and carries progress 100, and the task list shows 100 for a
    task that is processing. *)
Lemma progress_100_while_processing :
  ¬ (∀ σ tid t, reachable σ → tasks σ !! tid = Some t →
       progress t = 100 → status t = COMPLETED)
  ∧ ¬ (∀ task : TaskList.Task,
         TaskList.getProgressPercentage task = 100 →
         TaskList.status task = "completed"%string)
  ∧ tasks Scenario.fully_progressed !! "T3"
    = Some (with_progress 100 (on_acquired 0 (new_task 3)))
  ∧ TaskList.getProgressPercentage
      {| TaskList.id := "T3"; TaskList.name := "holiday.mp4";
         TaskList.status := "processing"; TaskList.progress := Some 100;
         TaskList.created_at := "1702796400000" |} = 100.
Proof.
  split; [| split; [| split; reflexivity]].
  - intros Hall.
    specialize (Hall Scenario.fully_progressed "T3"
                  (with_progress 100 (on_acquired 0 (new_task 3)))
                  (reachable_exec_all _ _ reachable_initial) eq_refl eq_refl).
    discriminate Hall.
  - intros Hall.
    specialize (Hall {| TaskList.id := "T3"; TaskList.name := "holiday.mp4";
                        TaskList.status := "processing";
                        TaskList.progress := Some 100;
                        TaskList.created_at := "1702796400000" |} eq_refl).
    discriminate Hall.
Qed.

(** *** The lock *)

Lemma locks_only_processing_step σ σ' tid :
  locks_only_processing σ →
  (∀ tid', tid' ≠ tid →
     locks σ' !! tid' = locks σ !! tid' ∧ tasks σ' !! tid' = tasks σ !! tid') →
  (is_Some (locks σ' !! tid) → status_of tid σ' = Some PROCESSING) →
  locks_only_processing σ'.
Proof.
  intros Hinv Hframe Hat tid' l Hl.
  destruct (decide (tid' = tid)) as [-> | Hne]; [by apply Hat |].
  destruct (Hframe tid' Hne) as [Hlocks Htasks].
  unfold status_of. rewrite Htasks. apply (Hinv tid' l). by rewrite <- Hlocks.
Qed.

Lemma settle_failure_locks_only_processing tid jitter t' σ :
  locks_only_processing σ →
  locks_only_processing (settle_failure tid jitter t' σ).
Proof.
  intros Hinv. apply (locks_only_processing_step σ _ tid); [done | |].
  - intros tid' Hne. rewrite settle_failure_locks, settle_failure_tasks.
    by rewrite lookup_delete_ne, lookup_insert_ne.
  - rewrite settle_failure_locks, lookup_delete_eq. by intros [? ?].
Qed.

Lemma exec_locks_only_processing op σ :
  locks_only_processing σ → locks_only_processing (exec op σ).2.
Proof.
  intros Hinv.
  destruct op as [tid max | now tid w | now tid w | now tid w p | now tid w
                 | now tid w cls code j | tid | tid | now tid j | tid seq payload];
    simpl.
  - unfold submit. destruct (tasks σ !! tid) eqn:Ht; [done |].
    destruct (max <? 0); [done |].
    apply (locks_only_processing_step σ _ tid); [done | |]; simpl.
    + intros tid' Hne. by rewrite lookup_insert_ne.
    + intros [l Hl]. apply Hinv in Hl. unfold status_of in Hl. by rewrite Ht in Hl.
  - unfold acquire. destruct (tasks σ !! tid) as [t|] eqn:Ht; [| done].
    destruct (decide _) as [Hq|]; [| done].
    destruct (set_nx_ex _ _ _ _) as [ls|] eqn:Hset; [| done].
    apply (locks_only_processing_step σ _ tid); [done | |]; simpl.
    + intros tid' Hne. rewrite lookup_insert_ne; [| done]. split; [| done].
      unfold set_nx_ex in Hset.
      destruct (locks σ !! tid) as [l|]; [destruct (live now l); [done |] |];
        injection Hset as <-; by rewrite lookup_insert_ne.
    + intros _. unfold status_of. simpl. by rewrite lookup_insert_eq.
  - unfold renewLease. destruct (holds _ _ _ _) eqn:Hh; [| done].
    apply (locks_only_processing_step σ _ tid); [done | |]; simpl.
    + intros tid' Hne. by rewrite lookup_insert_ne.
    + intros _. unfold holds in Hh.
      destruct (locks σ !! tid) as [l|] eqn:Hl; [| done]. by apply (Hinv tid l).
  - unfold reportProgress. destruct (leased _ _ _ _) as [t|] eqn:Hl; [| done].
    apply leased_Some in Hl as (Ht & Hs & _).
    destruct (_ && _); [| done].
    apply (locks_only_processing_step σ _ tid); [done | |]; simpl.
    + intros tid' Hne. by rewrite lookup_insert_ne.
    + intros _. unfold status_of. simpl. rewrite lookup_insert_eq. simpl.
      by rewrite Hs.
  - unfold reportSuccess. destruct (leased _ _ _ _) as [t|] eqn:Hl; [| done].
    apply (locks_only_processing_step σ _ tid); [done | |]; simpl.
    + intros tid' Hne. by rewrite lookup_delete_ne, lookup_insert_ne.
    + rewrite lookup_delete_eq. by intros [? ?].
  - unfold reportFailure. destruct (leased _ _ _ _) as [t|] eqn:Hl; [| done].
    by apply settle_failure_locks_only_processing.
  - unfold cancel. destruct (tasks σ !! tid) as [t|] eqn:Ht; [| done].
    destruct (status t) eqn:Hs; try done.
    + apply (locks_only_processing_step σ _ tid); [done | |]; simpl.
      * intros tid' Hne. by rewrite lookup_insert_ne.
      * intros [l Hl]. apply Hinv in Hl. unfold status_of in Hl.
        rewrite Ht in Hl. injection Hl as Hl. congruence.
    + apply (locks_only_processing_step σ _ tid); [done | |]; simpl.
      * intros tid' Hne. by rewrite lookup_insert_ne, lookup_delete_ne.
      * rewrite lookup_delete_eq. by intros [? ?].
  - unfold requeue. destruct (tasks σ !! tid) as [t|] eqn:Ht; [| done].
    destruct (decide _) as [Hf|]; [| done].
    apply (locks_only_processing_step σ _ tid); [done | |]; simpl.
    + intros tid' Hne. by rewrite lookup_insert_ne.
    + intros [l Hl]. apply Hinv in Hl. unfold status_of in Hl.
      rewrite Ht in Hl. injection Hl as Hs. congruence.
  - unfold reap. destruct (tasks σ !! tid) as [t|] eqn:Ht; [| done].
    destruct (_ && _); [| done].
    by apply settle_failure_locks_only_processing.
  - unfold save. destruct (checkpoints σ !! tid) as [[stored old]|]; [| done].
    by destruct (seq <=? stored).
Qed.

Lemma reachable_locks_only_processing σ :
  reachable σ → locks_only_processing σ.
Proof.
  induction 1 as [| op σ Hσ IH]; [by intros tid l Hl |].
  by apply exec_locks_only_processing.
Qed.

Lemma acquire_not_queued now tid w σ t :
  tasks σ !! tid = Some t → status t ≠ QUEUED →
  acquire now tid w σ = (AlreadyLeased, σ).
Proof. intros Ht Hs. unfold acquire. rewrite Ht. by destruct (decide _). Qed.

Lemma acquire_calls_not_queued tid (calls : list (Z * string)) σ t :
  tasks σ !! tid = Some t → status t ≠ QUEUED →
  exec_all (acquire_calls tid calls) σ
  = (replicate (length calls) AlreadyLeased, σ).
Proof.
  intros Ht Hs. induction calls as [|[now w] calls IH]; [done |].
  change (acquire_calls tid ((now, w) :: calls))
    with (Acquire now tid w :: acquire_calls tid calls).
  cbn [exec_all exec].
  by rewrite (acquire_not_queued now tid w σ t Ht Hs), IH.
Qed.

(** The atomic [acquire] of the model: on a reachable state with the task
    QUEUED, of any N >= 1 calls for it, taken in the order in which they take effect, the first
    succeeds: it takes the lock for its worker and sets PROCESSING; each of
    the other N-1 answers AlreadyLeased and changes nothing, so the state
    after all N calls is the state after the first. *)
Lemma atomic_acquire_first_wins σ tid t now w (calls : list (Z * string)) :
  reachable σ → tasks σ !! tid = Some t → status t = QUEUED →
  ∃ σ1, acquire now tid w σ = (Ok, σ1)
    ∧ status_of tid σ1 = Some PROCESSING
    ∧ locks σ1 !! tid = Some {| worker_id := w; expires_at := now + LOCK_TTL |}
    ∧ exec_all (acquire_calls tid ((now, w) :: calls)) σ
      = (Ok :: replicate (length calls) AlreadyLeased, σ1)
    ∧ (∀ now' w', acquire now' tid w' σ1 = (AlreadyLeased, σ1)).
Proof.
  intros Hσ Ht Hs.
  assert (Hfree : locks σ !! tid = None).
  { destruct (locks σ !! tid) as [l|] eqn:Hl; [| done].
    apply (reachable_locks_only_processing σ Hσ) in Hl.
    unfold status_of in Hl. rewrite Ht in Hl. injection Hl as Hl. congruence. }
  set (lock := {| worker_id := w; expires_at := now + LOCK_TTL |}).
  set (σ1 := set_locks (<[tid := lock]> (locks σ))
               (set_tasks (<[tid := on_acquired now t]> (tasks σ)) σ)).
  assert (Hacq : acquire now tid w σ = (Ok, σ1)).
  { unfold acquire, set_nx_ex. rewrite Ht, Hfree.
    destruct (decide _); [done | congruence]. }
  assert (Ht1 : tasks σ1 !! tid = Some (on_acquired now t))
    by (simpl; apply lookup_insert_eq).
  exists σ1. split; [done |]. split; [unfold status_of; by rewrite Ht1 |].
  split; [simpl; apply lookup_insert_eq |]. split.
  - change (acquire_calls tid ((now, w) :: calls))
      with (Acquire now tid w :: acquire_calls tid calls).
    cbn [exec_all exec]. rewrite Hacq.
    by rewrite (acquire_calls_not_queued tid calls σ1 _ Ht1).
  - intros now' w'. by apply (acquire_not_queued now' tid w' σ1 _ Ht1).
Qed.

End OrchestratorFacts.

Section LockRaceFacts.
Import Lifecycle LockRace.
Local Open Scope list_scope.






End LockRaceFacts.


(** The exclusion rests on the lock: once its 600 seconds have run out a
    second worker takes it, and both set PROCESSING. *)
Lemma expired_lock_admits_second_winner :
  let s := LockRace.run "T2"
             [LockRace.TryLock 0 "worker-1"; LockRace.TryLock 600 "worker-2";
              LockRace.MarkProcessing 601 "worker-1";
              LockRace.MarkProcessing 601 "worker-2"]
             (LockRace.start (Lifecycle.new_task 3)) in
  LockRace.outcomes s
  = [("worker-1"%string, Lifecycle.Ok); ("worker-2"%string, Lifecycle.Ok)].
Proof. reflexivity. Qed.

(** ** Further properties of the sources *)


Section MoreBatcherFacts.
Context {Update : Type}.
Import UpdateBatcher.
Local Open Scope list_scope.

(** X2: once it holds at most one update, the batcher's queue never holds
    more, whatever happens. *)
Theorem queue_holds_at_most_one_update (evs : list (Event Update)) (b : t Update) :
  (length (queue b) ≤ 1)%nat → (length (queue (run evs b)) ≤ 1)%nat.
Proof.
  revert b. induction evs as [|e evs IH]; intros b Hb; [done |].
  change (run (e :: evs) b) with (run evs (step b e)). apply IH.
  destruct e; simpl; try done.
  unfold tick. destruct (ticking b); [| done].
  destruct (queue b) eqn:Hq; simpl; [rewrite Hq; simpl |]; lia.
Qed.

End MoreBatcherFacts.

(** A new batcher that receives three updates before its first firing. *)
Lemma queue_holds_at_most_one_update_witness :
  (length (UpdateBatcher.queue
             (UpdateBatcher.run
                [UpdateBatcher.Start; UpdateBatcher.AddUpdate 10%Z;
                 UpdateBatcher.AddUpdate 20%Z; UpdateBatcher.AddUpdate 30%Z]
                (UpdateBatcher.new None))) ≤ 1)%nat.
Proof.
  apply (queue_holds_at_most_one_update
           [UpdateBatcher.Start; UpdateBatcher.AddUpdate 10%Z;
            UpdateBatcher.AddUpdate 20%Z; UpdateBatcher.AddUpdate 30%Z]
           (UpdateBatcher.new None)).
  simpl. lia.
Defined.

(** ** Task list: what is shown, and in which order *)

Lemma filter_filter_andb {A} (f g : A → bool) (l : list A) :
  List.filter g (List.filter f l) = List.filter (λ x, f x && g x) l.
Proof.
  induction l as [|x l IH]; [done |]. simpl.
  destruct (f x); simpl; [destruct (g x) |]; by rewrite IH.
Qed.

Lemma filter_all {A} (f : A → bool) (l : list A) :
  (∀ x, f x = true) → List.filter f l = l.
Proof.
  intros Hf. induction l as [|x l IH]; [done |]. simpl. by rewrite Hf, IH.
Qed.

Lemma StronglySorted_weaken {A} (R1 R2 : A → A → Prop) (l : list A) :
  (∀ a b, R1 a b → R2 a b) → StronglySorted R1 l → StronglySorted R2 l.
Proof.
  intros HR. induction 1 as [|x l Hs IH Hx]; constructor; [done |].
  eapply Forall_impl; [exact Hx | auto].
Qed.

Section TaskListViewFacts.
Context `{JsString} `{JsArraySort} `{JsDate}.
Import TaskList TaskListView.

Lemma filteredTasks_Permutation_filter
    (tasks : list Task) (filterStatus searchQuery sortBy : string) :
  filteredTasks tasks filterStatus searchQuery sortBy
  ≡ₚ List.filter (passes filterStatus searchQuery) tasks.
Proof.
  unfold filteredTasks, passes. rewrite sort_Permutation.
  destruct (String.eqb filterStatus "all") eqn:Hall;
    destruct (truthy (trim searchQuery)) eqn:Hq; simpl.
  - done.
  - by rewrite filter_all.
  - by rewrite filter_filter_andb.
  - erewrite (List.filter_ext (λ x, (String.eqb (status x) filterStatus) && true));
      [done |]. intros x. apply andb_true_r.
Qed.

(** X3: the list shown is exactly a rearrangement of the tasks that pass
    the status filter and the search, each as often as it occurs in the
    input: no task that passes is hidden, and a task is shown if and only
    if it is an input task that passes. *)
Theorem filteredTasks_shows_exactly_the_passing_tasks
    (tasks : list Task) (filterStatus searchQuery sortBy : string) :
  filteredTasks tasks filterStatus searchQuery sortBy
  ≡ₚ List.filter (passes filterStatus searchQuery) tasks
  ∧ ∀ task, task ∈ filteredTasks tasks filterStatus searchQuery sortBy
      ↔ task ∈ tasks ∧ passes filterStatus searchQuery task = true.
Proof.
  pose proof (filteredTasks_Permutation_filter tasks filterStatus searchQuery sortBy)
    as Hperm.
  split; [done |]. intros task. rewrite Hperm. apply elem_of_filter_bool.
Qed.

(** The empty-list message and the footer for the list the effect
    computes. *)
Lemma emptyMessage_of_filteredTasks
    (tasks : list Task) (filterStatus searchQuery sortBy : string) :
  let shown := filteredTasks tasks filterStatus searchQuery sortBy in
  (emptyMessage tasks shown = None ↔ is_Some (footer tasks shown))
  ∧ (emptyMessage tasks shown
       = Some "No tasks available. Start processing a video!" ↔ tasks = [])
  ∧ (emptyMessage tasks shown = Some "No tasks match your filters."
       ↔ tasks ≠ []
         ∧ List.filter (passes filterStatus searchQuery) tasks = []).
Proof.
  intros shown.
  pose proof (filteredTasks_Permutation_filter
                tasks filterStatus searchQuery sortBy) as Hperm.
  fold shown in Hperm. clearbody shown. unfold emptyMessage, footer.
  assert (Hnil : shown = [] ↔ List.filter (passes filterStatus searchQuery) tasks = []).
  { split; intros Hnil; rewrite Hnil in Hperm.
    - by apply Permutation_nil_l in Hperm.
    - by apply Permutation_nil_r in Hperm. }
  destruct shown as [|t shown]; cbn [length Nat.eqb Nat.ltb Nat.leb].
  - assert (Hf : List.filter (passes filterStatus searchQuery) tasks = [])
      by (by apply Hnil).
    destruct tasks as [|t0 tasks]; cbn [length Nat.eqb].
    + split; [split; [intros [=] | intros [? [=]]] |].
      split; [done |]. split; [intros [=] | intros [Hne _]; by destruct Hne].
    + split; [split; [intros [=] | intros [? [=]]] |].
      split; [split; intros [=] |]. split; [done | done].
  - split; [split; [by eexists | done] |].
    split; [split; [intros [=] |] | split; [intros [=] |]].
    + intros ->. by apply Permutation_nil_r in Hperm.
    + intros [_ Hf]. by apply Hnil in Hf.
Qed.

(** X5: once the effect has run for the current tasks and controls, the
    page shows either the empty-list message or the list with its footer,
    never both and never neither; the message is "No tasks available"
    exactly when there are no tasks at all, and "No tasks match your
    filters" when there are tasks but none passes. *)
Theorem empty_message_or_footer (s : TaskListComponent.State) :
  let s' := TaskListComponent.effect s in
  (TaskListComponent.emptyMessage s' = None
   ↔ is_Some (TaskListComponent.footer s'))
  ∧ (TaskListComponent.emptyMessage s'
       = Some "No tasks available. Start processing a video!"
     ↔ TaskListComponent.tasks s = [])
  ∧ (TaskListComponent.emptyMessage s' = Some "No tasks match your filters."
     ↔ TaskListComponent.tasks s ≠ []
       ∧ List.filter (passes (TaskListComponent.filterStatus s)
                        (TaskListComponent.searchQuery s))
           (TaskListComponent.tasks s) = []).
Proof.
  exact (emptyMessage_of_filteredTasks
           (TaskListComponent.tasks s) (TaskListComponent.filterStatus s)
           (TaskListComponent.searchQuery s) (TaskListComponent.sortBy s)).
Qed.

End TaskListViewFacts.

Section TaskListOrderFacts.
Context `{JsString} `{JsSort} `{JsDate}.
Import TaskList TaskListView.

Lemma compareTasks_by_date sortBy (a b : Task) :
  sortBy ≠ "status" → sortBy ≠ "name" →
  cmp_le (compareTasks sortBy) a b ↔ not_older a b.
Proof.
  intros Hs Hn. apply String.eqb_neq in Hs, Hn.
  unfold cmp_le, compareTasks, not_older. rewrite Hs, Hn.
  destruct (dateValue (created_at b)) as [tb|], (dateValue (created_at a)) as [ta|];
    split; try (intros (? & ? & ?); done); try (intros (? & ? & ? & ? & ?); done).
  - intros (v & [= <-] & Hv). exists ta, tb. split; [done |]. split; [done | lia].
  - intros (ta' & tb' & [= <-] & [= <-] & Hle). exists (tb - ta)%Z.
    split; [done | lia].
Qed.

(** Sorted by creation date and with every date valid, the list the
    effect computes runs from the newest task to the oldest. *)
Lemma filteredTasks_sorted_by_date
    (tasks : list Task) (filterStatus searchQuery sortBy : string) :
  sortBy ≠ "status" → sortBy ≠ "name" →
  (∀ task, task ∈ tasks → is_Some (dateValue (created_at task))) →
  StronglySorted not_older
    (filteredTasks (H0 := JsSort_sort) tasks filterStatus searchQuery sortBy).
Proof.
  intros Hs Hn Hdates. unfold filteredTasks.
  set (filtered := if truthy (trim searchQuery) then _ else _).
  assert (Hsub : ∀ task, task ∈ filtered → task ∈ tasks).
  { intros task. subst filtered.
    destruct (truthy _), (negb _); rewrite ?elem_of_filter_bool; tauto. }
  apply (StronglySorted_weaken (cmp_le (compareTasks sortBy))).
  { intros a b. by apply compareTasks_by_date. }
  apply sort_StronglySorted. split; [| split].
  - intros a b Ha Hb.
    destruct (Hdates a (Hsub a Ha)) as [ta Hta], (Hdates b (Hsub b Hb)) as [tb Htb].
    assert (not_older a b ∨ not_older b a) as [Hab | Hba].
    { destruct (Z.le_ge_cases tb ta); [left | right]; by eexists _, _. }
    + apply (compareTasks_by_date sortBy) in Hab as (v & -> & _); done.
    + pose proof (String.eqb_neq sortBy "status") as Hs'.
      pose proof (String.eqb_neq sortBy "name") as Hn'.
      unfold compareTasks. rewrite (proj2 Hs' Hs), (proj2 Hn' Hn), Hta, Htb. done.
  - intros a b v w _ _. pose proof (String.eqb_neq sortBy "status") as Hs'.
    pose proof (String.eqb_neq sortBy "name") as Hn'.
    unfold compareTasks. rewrite (proj2 Hs' Hs), (proj2 Hn' Hn).
    destruct (dateValue (created_at b)), (dateValue (created_at a)); try done.
    intros [= <-] [= <-]. lia.
  - intros a b c _ _ _ Hab Hbc.
    apply (compareTasks_by_date sortBy) in Hab, Hbc; [| done ..].
    apply (compareTasks_by_date sortBy); [done .. |].
    destruct Hab as (ta & tb & Hta & Htb & Hle), Hbc as (tb' & tc & Htb' & Htc & Hle').
    exists ta, tc. split; [done |]. split; [done |].
    assert (tb' = tb) by congruence. lia.
Qed.

(** X4: sorted by creation date (the default key, and any key other than
    'status' and 'name'), and with every date valid, the list displayed
    once the effect has run for the current tasks and controls runs from
    the newest task to the oldest: no task is shown above one created
    later. *)
Theorem filteredTasks_newest_first (s : TaskListComponent.State) :
  TaskListComponent.sortBy s ≠ "status" →
  TaskListComponent.sortBy s ≠ "name" →
  (∀ task, task ∈ TaskListComponent.tasks s →
     is_Some (dateValue (created_at task))) →
  StronglySorted not_older
    (TaskListComponent.filteredTasks
       (TaskListComponent.effect (H0 := JsSort_sort) s)).
Proof.
  intros Hs Hn Hdates.
  by apply (filteredTasks_sorted_by_date
              (TaskListComponent.tasks s) (TaskListComponent.filterStatus s)
              (TaskListComponent.searchQuery s) (TaskListComponent.sortBy s)).
Qed.

End TaskListOrderFacts.

(** The insertion sort honours the contract of a consistent comparator. *)
Lemma insert_sorted_StronglySorted {A} (cmp : A → A → option Z) (L : list A)
    (x : A) (l : list A) :
  consistent_comparator cmp L → x ∈ L → (∀ y, y ∈ l → y ∈ L) →
  StronglySorted (cmp_le cmp) l →
  StronglySorted (cmp_le cmp) (TaskList.insert_sorted cmp x l).
Proof.
  intros (Hdef & Hanti & Htrans) Hx. induction l as [|y l IH]; intros Hl Hs.
  { simpl. repeat constructor. }
  apply StronglySorted_inv in Hs as [Hs Hy].
  assert (HyL : y ∈ L) by (apply Hl; left).
  assert (HlL : ∀ z, z ∈ l → z ∈ L) by (intros z Hz; apply Hl; by right).
  destruct (Hdef x y Hx HyL) as [v Hv]. simpl. rewrite Hv. simpl.
  destruct (Z.leb_spec v 0) as [Hle | Hgt].
  - constructor; [by constructor |].
    assert (Hxy : cmp_le cmp x y) by by exists v.
    constructor; [done |]. apply Forall_forall. intros z Hz.
    apply (Htrans x y z); [done | done | by apply HlL | done |].
    rewrite Forall_forall in Hy. by apply Hy.
  - constructor; [by apply IH |].
    assert (Hyx : cmp_le cmp y x).
    { destruct (Hdef y x HyL Hx) as [w Hw]. exists w. split; [done |].
      pose proof (Hanti x y v w Hx HyL Hv Hw). lia. }
    rewrite (insert_sorted_Permutation cmp x l). by constructor.
Qed.

Lemma insertion_sort_StronglySorted {A} (cmp : A → A → option Z) (l : list A) :
  consistent_comparator cmp l →
  StronglySorted (cmp_le cmp) (TaskList.insertion_sort cmp l).
Proof.
  intros Hc.
  assert (Hgen : ∀ k, (∀ y, y ∈ k → y ∈ l) →
            StronglySorted (cmp_le cmp) (TaskList.insertion_sort cmp k)).
  { induction k as [|x k IH]; intros Hk; [constructor |].
    simpl. apply (insert_sorted_StronglySorted cmp l); [done | | |].
    - apply Hk. by left.
    - intros y Hy. apply Hk. right.
      by rewrite <- (insertion_sort_Permutation cmp k).
    - apply IH. intros y Hy. apply Hk. by right. }
  by apply Hgen.
Qed.

#[global] Instance stable_js_sort : JsSort := {|
  JsSort_sort := stable_sort;
  sort_StronglySorted := @insertion_sort_StronglySorted
|}.

(** Three tasks of 2021, 2023 and 2022, given in this order, are shown
    newest first once the effect of the first render has run. *)
Lemma filteredTasks_newest_first_witness :
  StronglySorted TaskListView.not_older
    (TaskListComponent.filteredTasks
       (TaskListComponent.effect (H0 := JsSort_sort)
          (TaskListComponent.mount
             [ {| TaskList.id := "1"; TaskList.name := "a";
                  TaskList.status := "completed"; TaskList.progress := None;
                  TaskList.created_at := "2021" |};
               {| TaskList.id := "2"; TaskList.name := "b";
                  TaskList.status := "failed"; TaskList.progress := None;
                  TaskList.created_at := "2023" |};
               {| TaskList.id := "3"; TaskList.name := "c";
                  TaskList.status := "pending"; TaskList.progress := Some 10%Z;
                  TaskList.created_at := "2022" |} ]))).
Proof.
  apply filteredTasks_newest_first.
  - discriminate.
  - discriminate.
  - intros task Hin. simpl in Hin.
    repeat (apply elem_of_cons in Hin as [-> | Hin]; [by eexists |]).
    by apply elem_of_nil in Hin.
Defined.

(** ** Durations *)

Section DurationFacts.
Import TaskListView.
Local Open Scope Z_scope.

(** X6: a positive whole number of seconds, up to 2^53, is shown as
    hours, minutes and seconds that add up to it, with minutes and seconds
    below 60; the hours are shown exactly from one hour on. *)
Theorem formatDuration_parts_add_up (seconds : Z) :
  0 < seconds ≤ 2 ^ 53 →
  ∃ h m s,
    seconds = h * 3600 + m * 60 + s
    ∧ 0 ≤ h ∧ 0 ≤ m < 60 ∧ 0 ≤ s < 60
    ∧ (0 < h ↔ 3600 ≤ seconds)
    ∧ formatDuration seconds =
        (if 0 <? h
         then (numberToString h ++ "h " ++ numberToString m ++ "m "
               ++ numberToString s ++ "s")%string
         else (numberToString m ++ "m " ++ numberToString s ++ "s")%string).
Proof.
  intros [Hpos _].
  exists (seconds / 3600), (Z.rem seconds 3600 / 60), (Z.rem seconds 60).
  assert (Hne : (seconds =? 0) = false) by (apply Z.eqb_neq; lia).
  unfold formatDuration. rewrite Hne. cbv zeta.
  rewrite !Z.rem_mod_nonneg by lia.
  repeat split; try reflexivity; Z.div_mod_to_equations; lia.
Qed.

(** One hour, one minute and one second. *)
Lemma formatDuration_parts_add_up_witness :
  ∃ h m s,
    3661 = h * 3600 + m * 60 + s
    ∧ 0 ≤ h ∧ 0 ≤ m < 60 ∧ 0 ≤ s < 60
    ∧ (0 < h ↔ 3600 ≤ 3661)
    ∧ formatDuration 3661 =
        (if 0 <? h
         then (numberToString h ++ "h " ++ numberToString m ++ "m "
               ++ numberToString s ++ "s")%string
         else (numberToString m ++ "m " ++ numberToString s ++ "s")%string).
Proof. apply (formatDuration_parts_add_up 3661). lia. Defined.

End DurationFacts.

(** ** Upload component: events *)

Section UploaderFacts.
Context `{JsString}.
Import Uploader.
Local Open Scope list_scope.
Implicit Types (s : State) (e : Event) (evs : list Event).

Lemma run_cons e evs s : run (e :: evs) s = run evs (step s e).
Proof. done. Qed.

Lemma pending_spec i s :
  pending i s = true ↔ (i < length (requests s))%nat ∧ i ∉ settled s.
Proof.
  unfold pending. rewrite andb_true_iff, Nat.ltb_lt, negb_true_iff.
  split; intros [Hlt Hn]; (split; [done |]).
  - intros Hin. apply list_elem_of_In in Hin.
    assert (existsb (Nat.eqb i) (settled s) = true); [| congruence].
    apply existsb_exists. exists i. split; [done | apply Nat.eqb_refl].
  - destruct (existsb _ _) eqn:He; [| done].
    apply existsb_exists in He as (j & Hj & ->%Nat.eqb_eq).
    destruct Hn. by apply list_elem_of_In.
Qed.

(** What [handleFileSelect] does to the requests and the callbacks. *)
Lemma handleFileSelect_requests files s :
  settled (handleFileSelect files s) = settled s
  ∧ onUploadSuccess (handleFileSelect files s) = onUploadSuccess s
  ∧ onUploadError (handleFileSelect files s) = onUploadError s
  ∧ (requests (handleFileSelect files s) = requests s
     ∨ ∃ file, requests (handleFileSelect files s) = requests s ++ [file]
         ∧ ¬ VideoUpload.malformed file).
Proof.
  destruct files as [[|file rest]|]; simpl; try by auto.
  destruct (VideoUpload.isValid (VideoUpload.validateFile file)) eqn:Hv; simpl.
  - repeat split; try done. right. exists file. split; [done |].
    by apply validateFile_valid_iff.
  - by auto.
Qed.

Lemma step_requests s e :
  requests (step s e) = requests s
  ∨ ∃ file, requests (step s e) = requests s ++ [file]
      ∧ ¬ VideoUpload.malformed file.
Proof.
  unfold step. destruct (enabled e s) eqn:He; [| by left].
  destruct e as [files | files | | | | i p | i status r now | i | i]; simpl;
    try by left.
  - apply handleFileSelect_requests.
  - unfold handleDrop. destruct files as [[|file rest]|]; try by left.
    apply (handleFileSelect_requests (Some (file :: rest)) (setDragActive false s)).
  - destruct p; by left.
  - destruct (requests s !! i); [| by left]. unfold onLoad.
    destruct (_ || _); [destruct r |]; by left.
Qed.

(** The two models of [handleFileSelect] agree on the cells they share. *)
Lemma handleFileSelect_agrees files s :
  cells (handleFileSelect files s) = VideoUpload.handleFileSelect files (cells s).
Proof.
  destruct files as [[|file rest]|]; try done. simpl.
  by destruct (VideoUpload.isValid (VideoUpload.validateFile file)).
Qed.

(** X7: whatever the user and the network do, every request the component
    sends carries a file that passed the validation: a malformed file is
    never uploaded. *)
Theorem malformed_files_are_never_uploaded evs :
  Forall (λ file, ¬ VideoUpload.malformed file) (requests (run evs initial)).
Proof.
  assert (Hgen : ∀ s, Forall (λ file, ¬ VideoUpload.malformed file) (requests s) →
            Forall (λ file, ¬ VideoUpload.malformed file) (requests (run evs s))).
  { induction evs as [|e evs IH]; intros s Hs; [done |].
    rewrite run_cons. apply IH.
    destruct (step_requests s e) as [-> | (file & -> & Hok)]; [done |].
    apply Forall_app. split; [done | by constructor]. }
  apply Hgen. constructor.
Qed.

Lemma stuck_step s e : is_drop e = false → stuck s →
  stuck (step s e)
  ∧ requests (step s e) = requests s
  ∧ onUploadSuccess (step s e) = onUploadSuccess s
  ∧ onUploadError (step s e) = onUploadError s.
Proof.
  intros Hd (Hup & Hfile & Herr & Hpend). unfold step.
  destruct (enabled e s) eqn:He; [| done].
  destruct e as [files | files | | | | i p | i status r now | i | i];
    simpl in He; try done;
    try (by rewrite Hpend in He);
    try (by rewrite Hup, ?Hfile, ?andb_false_r in He).
Qed.

(** X9: an upload answered with a status other than 200 and 201 leaves
    the component showing "Uploading..." for good: no error is shown,
    neither callback is called, and no later event except a new drop
    changes that (the file input stays disabled, the request is over). *)
Theorem failed_status_leaves_component_uploading
    (file : File.t) (rest : list File.t) (status : Z)
    (response : option (gmap string Value)) (now : string) evs :
  ¬ VideoUpload.malformed file → status ≠ 200%Z → status ≠ 201%Z →
  forallb (λ e, negb (is_drop e)) evs = true →
  let s := run ([Change (Some (file :: rest)); XhrLoad 0 status response now] ++ evs)
               initial in
  isUploading s = true ∧ error s = None ∧ uploadedFile s = None
  ∧ onUploadSuccess s = [] ∧ onUploadError s = [] ∧ requests s = [file]
  ∧ (∀ files, step s (Change files) = s).
Proof.
  intros Hok H200 H201 Hevs.
  apply validateFile_valid_iff in Hok.
  apply Z.eqb_neq in H200, H201.
  assert (Hgen : ∀ s0, stuck s0 →
            stuck (run evs s0) ∧ requests (run evs s0) = requests s0
            ∧ onUploadSuccess (run evs s0) = onUploadSuccess s0
            ∧ onUploadError (run evs s0) = onUploadError s0).
  { induction evs as [|e evs IH]; intros s0 Hs0; [done |].
    simpl in Hevs. apply andb_true_iff in Hevs as [He Hevs].
    apply negb_true_iff in He.
    destruct (stuck_step s0 e He Hs0) as (Hst & Hr & Hsu & Her).
    rewrite run_cons. destruct (IH Hevs _ Hst) as (? & -> & -> & ->). done. }
  intros s. subst s.
  change (run ([Change (Some (file :: rest)); XhrLoad 0 status response now] ++ evs)
            initial)
    with (foldl step initial
            ([Change (Some (file :: rest)); XhrLoad 0 status response now] ++ evs)).
  rewrite foldl_app.
  change (foldl step ?a evs) with (run evs a).
  set (s2 := foldl step initial _).
  assert (Hs2 : s2 = settle 0 (uploadFile file
            {| dragActive := false; uploadProgress := 0; isUploading := false;
               uploadedFile := None; error := None; fileSize := File.size file;
               requests := []; settled := [];
               onUploadSuccess := []; onUploadError := [] |})).
  { subst s2. simpl. unfold step at 2. simpl. rewrite Hok. simpl.
    unfold step. simpl. unfold onLoad. by rewrite H200, H201. }
  assert (Hstuck : stuck s2).
  { rewrite Hs2. repeat split. intros [|i]; done. }
  destruct (Hgen s2 Hstuck) as ((Hup & Hfile & Herr & Hpend) & Hr & Hsu & Her).
  rewrite Hr, Hsu, Her. split; [done |]. split; [done |]. split; [done |].
  split; [by rewrite Hs2 |]. split; [by rewrite Hs2 |]. split; [by rewrite Hs2 |].
  intros files. unfold step. simpl. by rewrite Hup, andb_false_r.
Qed.

Lemma step_uploadedFile s e :
  (uploadedFile (step s e) = uploadedFile s ∨ uploadedFile (step s e) = None)
  ∧ onUploadSuccess (step s e) = onUploadSuccess s
  ∨ ∃ file r now,
      uploadedFile (step s e)
      = Some (r ∪ {[ "name" := Str (File.name file);
                     "size" := Num (Z.of_N (File.size file));
                     "uploadedAt" := Str now ]})
      ∧ onUploadSuccess (step s e) = onUploadSuccess s ++ [r].
Proof.
  unfold step. destruct (enabled e s) eqn:He; [| by auto].
  destruct e as [files | files | | | | i p | i status r now | i | i]; simpl;
    try by auto.
  - destruct files as [[|file rest]|]; simpl; try by auto.
    destruct (VideoUpload.isValid _); simpl; by auto.
  - unfold handleDrop. destruct files as [[|file rest]|]; simpl; try by auto.
    destruct (VideoUpload.isValid _); simpl; by auto.
  - destruct p; by auto.
  - destruct (requests s !! i) as [file|]; [| by auto]. unfold onLoad.
    destruct (_ || _); [destruct r as [r|] |]; simpl; try by auto.
    right. by exists file, r, now.
Qed.

Lemma step_success_view_complete s e :
  success_view_complete s → success_view_complete (step s e).
Proof.
  intros Hs m Hm.
  destruct (step_uploadedFile s e) as [[[Hu | Hu] Hc] | (file & r & now & Hu & Hc)];
    rewrite Hu in Hm.
  - by apply Hs.
  - done.
  - injection Hm as <-.
    assert (Hkey : ∀ k, k = "name"%string ∨ k = "size"%string ∨ k = "uploadedAt"%string →
      is_Some ((r ∪ ({[ "name" := Str (File.name file);
                        "size" := Num (Z.of_N (File.size file));
                        "uploadedAt" := Str now ]} : gmap string Value)) !! k)).
    { intros k Hk. apply lookup_union_is_Some. right.
      destruct Hk as [-> | [-> | ->]].
      - by rewrite lookup_insert_eq.
      - rewrite lookup_insert_ne, lookup_insert_eq; done.
      - rewrite !lookup_insert_ne, lookup_singleton_eq; done. }
    repeat split; apply Hkey; auto.
Qed.

(** X10: whenever the success view is on display, after any sequence of
    events, the object it prints has a name, a size and an upload time,
    whatever the server answered. *)
Theorem success_view_only_after_success evs :
  success_view_complete (run evs initial).
Proof.
  assert (Hgen : ∀ s, success_view_complete s → success_view_complete (run evs s)).
  { induction evs as [|e evs IH]; intros s Hs; [done |].
    rewrite run_cons. by apply IH, step_success_view_complete. }
  apply Hgen. by intros m.
Qed.

(** X11: while an upload is under way the file dialog cannot start
    another one, but a drop does: a valid file dropped on the area is sent
    as a further request next to the one under way. *)
Theorem drop_while_uploading_starts_another_upload
    s (file : File.t) (rest : list File.t) :
  isUploading s = true → uploadedFile s = None →
  ¬ VideoUpload.malformed file →
  step s (Change (Some (file :: rest))) = s
  ∧ requests (step s (Drop (Some (file :: rest)))) = requests s ++ [file]
  ∧ settled (step s (Drop (Some (file :: rest)))) = settled s.
Proof.
  intros Hup Hfile Hok. apply validateFile_valid_iff in Hok.
  unfold step. simpl. rewrite Hup, andb_false_r.
  rewrite (bool_decide_eq_true_2 _ Hfile). simpl. by rewrite Hok.
Qed.

End UploaderFacts.

(** A second file is dropped while the first is being sent. *)
Lemma drop_while_uploading_starts_another_upload_witness :
  Uploader.requests
    (Uploader.run [Uploader.Change (Some [File.mk "a.mp4" "video/mp4" 10]);
                   Uploader.Drop (Some [File.mk "b.webm" "video/webm" 20])]
       Uploader.initial)
  = [File.mk "a.mp4" "video/mp4" 10; File.mk "b.webm" "video/webm" 20].
Proof.
  refine (proj1 (proj2 (drop_while_uploading_starts_another_upload
            (Uploader.step Uploader.initial
               (Uploader.Change (Some [File.mk "a.mp4" "video/mp4" 10])))
            (File.mk "b.webm" "video/webm" 20) [] _ _ _))).
  - reflexivity.
  - reflexivity.
  - apply validateFile_valid_iff. reflexivity.
Defined.

(** A server error (500) after a valid selection, then drag events. *)
Lemma failed_status_leaves_component_uploading_witness :
  Uploader.isUploading
    (Uploader.run [Uploader.Change (Some [File.mk "a.mp4" "video/mp4" 10]);
                   Uploader.XhrLoad 0 500 None "2024-12-16T09:47:45.000Z";
                   Uploader.DragOver; Uploader.DragLeave]
       Uploader.initial) = true.
Proof.
  refine (proj1 (failed_status_leaves_component_uploading
            (File.mk "a.mp4" "video/mp4" 10) [] 500 None "2024-12-16T09:47:45.000Z"
            [Uploader.DragOver; Uploader.DragLeave] _ _ _ _)).
  - apply validateFile_valid_iff. reflexivity.
  - lia.
  - lia.
  - reflexivity.
Defined.

(** ** Polling fallback *)

Section TaskPollerFacts.
Import TaskPoller.
Local Open Scope Z_scope.
Local Open Scope list_scope.
Implicit Types (p : t) (e : Event) (evs : list Event).

Lemma poller_run_cons e evs p : run (e :: evs) p = run evs (step p e).
Proof. done. Qed.

(** What an answer does to the progress reported so far. *)
Lemma answer_reported task p :
  (reported (answer task p) = reported p
   ∧ lastProgress (answer task p) = lastProgress p)
  ∨ ∃ v, lastProgress p < v
      ∧ reported (answer task p) = reported p ++ [v]
      ∧ lastProgress (answer task p) = v.
Proof.
  unfold answer. destruct (in_flight p) as [|n]; [by left |].
  destruct (progress task) as [v|] eqn:Hv.
  - destruct (Z.ltb_spec (lastProgress p) v) as [Hlt | Hge].
    + right. exists v. split; [done |].
      destruct (terminal _); unfold reported; simpl;
        rewrite omap_app; simpl; by rewrite Hv.
    + left. by destruct (terminal _).
  - left. by destruct (terminal _).
Qed.

(** X12: whatever is fetched and in whatever order the answers come in,
    the progress values handed to [onProgress] are strictly increasing and
    all above 0: a progress that is not higher than the last one reported
    is never reported, and 0 never is. *)
Theorem poller_reports_strictly_increasing_progress evs :
  StronglySorted Z.lt (reported (run evs new))
  ∧ Forall (λ v, 0 < v ≤ lastProgress (run evs new)) (reported (run evs new)).
Proof.
  assert (Hgen : ∀ p,
    StronglySorted Z.lt (reported p)
    ∧ Forall (λ v, 0 < v ≤ lastProgress p) (reported p) ∧ 0 ≤ lastProgress p →
    StronglySorted Z.lt (reported (run evs p))
    ∧ Forall (λ v, 0 < v ≤ lastProgress (run evs p)) (reported (run evs p))
    ∧ 0 ≤ lastProgress (run evs p)).
  { induction evs as [|e evs IH]; intros p Hp; [done |].
    rewrite poller_run_cons. apply IH. destruct Hp as (Hs & Hb & H0).
    destruct e as [| | | task |]; simpl; try done.
    - unfold tick. by destruct (ticking p).
    - destruct (answer_reported task p) as [[-> ->] | (v & Hlt & -> & ->)]; [done |].
      split; [| split; [| lia]].
      + apply StronglySorted_app. split; [| split; [done | repeat constructor]].
        intros x1 x2 Hx1 ->%list_elem_of_singleton.
        rewrite Forall_forall in Hb. specialize (Hb x1 Hx1). lia.
      + apply Forall_app. split; [| constructor; [lia | constructor]].
        eapply Forall_impl; [exact Hb |]. intros x Hx. cbv beta in *. lia. }
  destruct (Hgen new) as (Hs & Hb & _); [| done].
  repeat split; simpl; try constructor. lia.
Qed.

Lemma stopped_step p e :
  ticking p = false → is_start e = false →
  ticking (step p e) = false
  ∧ ∃ more, onComplete (step p e) = onComplete p ++ more
      ∧ (length more + in_flight (step p e) ≤ in_flight p)%nat.
Proof.
  intros Hi He. pose proof Hi as Hi0.
  unfold ticking in Hi0. apply orb_false_iff in Hi0 as [Hint Hleak].
  destruct e as [| | | task |]; simpl; try done.
  - split; [by unfold ticking; simpl |]. exists []. rewrite app_nil_r. simpl.
    split; [done | lia].
  - unfold tick. rewrite Hi. split; [done |]. exists []. rewrite app_nil_r.
    simpl. split; [done | lia].
  - unfold answer. destruct (in_flight p) as [|n] eqn:Hn.
    { split; [done |]. exists []. rewrite app_nil_r, Hn. simpl. split; [done | lia]. }
    destruct (progress task) as [v|]; [destruct (_ <? _) |];
      destruct (terminal _); unfold ticking; simpl; rewrite ?Hint;
      (split; [done |]);
      first [ exists [task]; simpl; split; [done | lia]
            | exists []; rewrite app_nil_r; simpl; split; [done | lia] ].
  - split; [by unfold ticking; simpl; rewrite Hint |].
    exists []. rewrite app_nil_r. simpl. split; [done | lia].
Qed.

(** X13: once no timer of the poller is installed (it was started at
    most once and the timer is cleared) and as long as [start] is not
    called again, none is; [onComplete] is called again at most once per
    fetch that was still in flight, so not at all when none was. *)
Theorem poller_stopped_completes_only_fetches_in_flight p evs :
  ticking p = false → forallb (λ e, negb (is_start e)) evs = true →
  ticking (run evs p) = false
  ∧ ∃ more, onComplete (run evs p) = onComplete p ++ more
      ∧ (length more + in_flight (run evs p) ≤ in_flight p)%nat.
Proof.
  revert p. induction evs as [|e evs IH]; intros p Hi Hevs.
  { split; [done |]. exists []. rewrite app_nil_r. simpl. split; [done | lia]. }
  simpl in Hevs. apply andb_true_iff in Hevs as [He Hevs].
  apply negb_true_iff in He.
  destruct (stopped_step p e Hi He) as (Hi1 & more1 & Hc1 & Hn1).
  rewrite poller_run_cons.
  destruct (IH (step p e) Hi1 Hevs) as (Hi2 & more2 & Hc2 & Hn2).
  split; [done |]. exists (more1 ++ more2).
  rewrite Hc2, Hc1, <- app_assoc. split; [done |]. rewrite length_app. lia.
Qed.

(** A terminal answer stops the poller; a second answer that was in flight
    still completes, later firings do nothing. *)
Lemma poller_stopped_completes_only_fetches_in_flight_witness :
  let p := run [Start; Tick; Tick; Answer {| progress := Some 100; status := "completed" |}] new in
  ticking (run [Tick; Answer {| progress := Some 100; status := "completed" |}; Tick] p)
  = false.
Proof.
  intros p.
  apply (poller_stopped_completes_only_fetches_in_flight p
           [Tick; Answer {| progress := Some 100; status := "completed" |}; Tick]);
    reflexivity.
Defined.

(** A poller started twice keeps its first timer after a terminal answer:
    it goes on fetching and completes a second time. *)
Lemma twice_started_poller_completes_twice :
  onComplete
    (run [Start; Start; Tick; Answer {| progress := Some 100; status := "completed" |};
          Tick; Answer {| progress := Some 100; status := "completed" |}] new)
  = [ {| progress := Some 100; status := "completed" |};
      {| progress := Some 100; status := "completed" |} ].
Proof. reflexivity. Qed.

(** X14: for a poller started once, [onComplete] has been called only if
    the timer is cleared: while the timer runs, no terminal task has been
    seen. *)
Theorem poller_completion_clears_timer evs :
  forallb (λ e, negb (is_start e)) evs = true →
  onComplete (run evs (start new)) ≠ [] →
  interval (run evs (start new)) = false.
Proof.
  assert (Hgen : ∀ p, (onComplete p ≠ [] → interval p = false) →
    forallb (λ e, negb (is_start e)) evs = true →
    onComplete (run evs p) ≠ [] → interval (run evs p) = false).
  { induction evs as [|e evs IH]; intros p Hp Hevs; [done |].
    simpl in Hevs. apply andb_true_iff in Hevs as [He Hevs].
    apply negb_true_iff in He. rewrite poller_run_cons. apply IH; [| done].
    destruct e as [| | | task |]; simpl; try done.
    - unfold tick. by destruct (ticking p).
    - unfold answer. destruct (in_flight p); [done |].
      destruct (progress task) as [v|]; [destruct (_ <? _) |];
        destruct (terminal _); simpl; done. }
  apply Hgen. done.
Qed.

(** A poller that sees a failed task. *)
Lemma poller_completion_clears_timer_witness :
  interval (run [Tick; Answer {| progress := Some 40; status := "failed" |}] (start new))
  = false.
Proof.
  apply (poller_completion_clears_timer
           [Tick; Answer {| progress := Some 40; status := "failed" |}]).
  - reflexivity.
  - discriminate.
Defined.

End TaskPollerFacts.

(** ** WebSocket reconnection *)

Section ReconnectFacts.
Import Reconnect.
Local Open Scope list_scope.

Lemma errors_in_a_row_S (k : nat) :
  ∃ a, onerror (k `min` length reconnectDelays)
       = (S k `min` length reconnectDelays, a)
    ∧ errors_in_a_row (S k) = errors_in_a_row k ++ [a].
Proof.
  do 5 (destruct k as [|k]; [by eexists |]).
  exists FallbackToPolling. split; [by rewrite !Nat.min_r by (simpl; lia) |].
  unfold errors_in_a_row. rewrite !take_ge by (simpl; lia).
  replace (S (S (S (S (S (S k))))) - length reconnectDelays)%nat with (S k)
    by (simpl; lia).
  replace (S (S (S (S (S k)))) - length reconnectDelays)%nat with k
    by (simpl; lia).
  by rewrite replicate_S_end, app_assoc.
Qed.

Lemma errors_from_fresh (k : nat) (acts : list Action) :
  foldl step (0%nat, acts) (replicate k Error)
  = (k `min` length reconnectDelays, acts ++ errors_in_a_row k).
Proof.
  induction k as [|k IH].
  { simpl. by rewrite app_nil_r. }
  rewrite replicate_S_end, foldl_app, IH.
  destruct (errors_in_a_row_S k) as (a & Ha & ->).
  cbn [foldl step fst snd]. rewrite Ha. by rewrite app_assoc.
Qed.

(** X15: after a connection has opened (and from the start), the first
    five errors in a row schedule a reconnection after 1, 2, 5, 10 and 30
    seconds, and every further error in the row falls back to polling;
    what was done before is not touched. *)
Theorem reconnect_backs_off_then_falls_back
    (evs : list Event) (reconnectAttempt k : nat) :
  run (evs ++ Open :: replicate k Error) reconnectAttempt
  = (k `min` 5, (run evs reconnectAttempt).2 ++ errors_in_a_row k)
  ∧ run (replicate k Error) 0 = (k `min` 5, errors_in_a_row k).
Proof.
  split.
  - unfold run. rewrite foldl_app. simpl.
    destruct (foldl step (reconnectAttempt, []) evs) as [n acts]. simpl.
    apply errors_from_fresh.
  - unfold run. apply (errors_from_fresh k []).
Qed.

(** X16: whatever the order of errors and opens and whatever the counter
    starts at, a reconnection is only ever scheduled with one of the five
    configured delays, never with an undefined one, and the counter never
    passes 5 once it is at most 5. *)
Theorem reconnect_delay_is_always_defined (evs : list Event) (reconnectAttempt : nat) :
  Forall (λ a, a = FallbackToPolling
             ∨ ∃ d, a = SetTimeout (Some d) ∧ d ∈ reconnectDelays)
    (run evs reconnectAttempt).2
  ∧ ((reconnectAttempt ≤ 5)%nat → ((run evs reconnectAttempt).1 ≤ 5)%nat).
Proof.
  unfold run.
  assert (Hgen : ∀ st : nat * list Action,
    Forall (λ a, a = FallbackToPolling
               ∨ ∃ d, a = SetTimeout (Some d) ∧ d ∈ reconnectDelays) st.2 →
    Forall (λ a, a = FallbackToPolling
               ∨ ∃ d, a = SetTimeout (Some d) ∧ d ∈ reconnectDelays)
      (foldl step st evs).2
    ∧ ((st.1 ≤ 5)%nat → ((foldl step st evs).1 ≤ 5)%nat)).
  { induction evs as [|e evs IH]; intros [n acts] Hacts; [done |].
    simpl foldl. destruct e; simpl.
    - unfold onerror. destruct (Nat.ltb_spec n (length reconnectDelays)) as [Hlt | Hge].
      + destruct (lookup_lt_is_Some_2 reconnectDelays n Hlt) as [d Hd].
        rewrite Hd. edestruct IH as [Hf Hn]; [| split; [exact Hf |]].
        * simpl. apply Forall_app. split; [done |]. constructor; [| done].
          right. exists d. split; [done |]. by eapply list_elem_of_lookup_2.
        * intros _. apply Hn. simpl in *. lia.
      + edestruct IH as [Hf Hn]; [| split; [exact Hf | exact Hn]].
        simpl. apply Forall_app. split; [done |]. constructor; [by left | done].
    - edestruct IH as [Hf Hn]; [| split; [exact Hf |]]; [done |].
      intros _. apply Hn. unfold onopen. simpl. lia. }
  apply Hgen. constructor.
Qed.

End ReconnectFacts.

(** ** Retry delay, continued *)

Section RetryDelayFacts.
Import Retry.
Local Open Scope Q_scope.

Lemma pow2_below_cap (n : Z) : (n <= 8)%Z → 2 ^ (n - 1) <= 128.
Proof.
  intros Hn. change 128 with (2 ^ 7).
  apply Qpower_le_compat_l; [lia | discriminate].
Qed.

(** X17: the jitter only matters below the cap: up to the eighth retry
    the delay is exactly 2^(n-1) times the jitter, from the tenth to the
    1024th retry it is exactly 300 seconds whatever the jitter drawn, and
    from the 1025th on no delay is computed. *)
Theorem retry_delay_jitter_only_below_cap (n : N) (jitter : Q) :
  4 # 5 <= jitter → jitter <= 6 # 5 →
  ((n <= 8)%N →
   ∃ delay, calculate_retry_delay n jitter = Some delay
     ∧ delay == 2 ^ (Z.of_N n - 1) * jitter)
  ∧ ((10 <= n <= 1024)%N →
     ∃ delay, calculate_retry_delay n jitter = Some delay ∧ delay == 300)
  ∧ ((1025 <= n)%N → calculate_retry_delay n jitter = None).
Proof.
  intros Hlo Hhi. unfold calculate_retry_delay.
  destruct (scaled_bounds (2 ^ (Z.of_N n - 1)) jitter (pow2_pos _) Hlo Hhi) as [Hl Hh].
  destruct (N.leb_spec 1025 n) as [Hbig | Hsmall].
  { split; [intros ?; lia |]. split; [intros ?; lia | done]. }
  split; [| split; [| intros ?; lia]]; intros Hn; eexists; (split; [reflexivity |]).
  - pose proof (pow2_below_cap (Z.of_N n) ltac:(lia)). apply Q.min_l. lra.
  - pose proof (pow2_large (Z.of_N n) ltac:(lia)). apply Q.min_r. lra.
Qed.

(** The second and the twelfth retry with the largest jitter. *)
Lemma retry_delay_jitter_only_below_cap_witness :
  (∃ delay, calculate_retry_delay 2 (6 # 5) = Some delay
     ∧ delay == 2 ^ 1 * (6 # 5))
  ∧ (∃ delay, calculate_retry_delay 12 (6 # 5) = Some delay ∧ delay == 300).
Proof.
  assert (Hlo : 4 # 5 <= 6 # 5) by (unfold Qle; simpl; lia).
  assert (Hhi : 6 # 5 <= 6 # 5) by (unfold Qle; simpl; lia).
  split.
  - apply (retry_delay_jitter_only_below_cap 2 (6 # 5) Hlo Hhi). lia.
  - apply (retry_delay_jitter_only_below_cap 12 (6 # 5) Hlo Hhi). lia.
Defined.

(** X18: with the same jitter a later retry never waits less than an
    earlier one, as long as a delay is computed (up to the 1024th). *)
Theorem retry_delay_is_monotone (n : N) (jitter : Q) :
  0 <= jitter → (n + 1 <= 1024)%N →
  ∃ d d', calculate_retry_delay n jitter = Some d
    ∧ calculate_retry_delay (n + 1) jitter = Some d' ∧ d <= d'.
Proof.
  intros Hj Hn. unfold calculate_retry_delay.
  destruct (N.leb_spec 1025 n) as [? | _]; [lia |].
  destruct (N.leb_spec 1025 (n + 1)) as [? | _]; [lia |].
  eexists _, _. split; [reflexivity |]. split; [reflexivity |].
  apply Q.min_le_compat_r. apply Qmult_le_compat_r; [| done].
  apply Qpower_le_compat_l; [lia | discriminate].
Qed.

(** The first two retries without jitter: 1 s, then 2 s. *)
Lemma retry_delay_is_monotone_witness :
  ∃ d d', calculate_retry_delay 1 1 = Some d
    ∧ calculate_retry_delay (1 + 1) 1 = Some d' ∧ d <= d'.
Proof. apply (retry_delay_is_monotone 1 1); [discriminate | lia]. Defined.

End RetryDelayFacts.

(** ** Update batcher, continued *)

Section BatcherTraceFacts.
Context {Update : Type}.
Import UpdateBatcher BatcherTrace.
Local Open Scope list_scope.
Implicit Types (b : t Update) (e : Event Update) (evs : list (Event Update)).

Lemma batcher_run_cons e evs b : run (e :: evs) b = run evs (step b e).
Proof. done. Qed.

Lemma step_sublist b e :
  delivered (step b e) ++ queue (step b e)
  `sublist_of` (delivered b ++ queue b) ++ added [e].
Proof.
  destruct e as [u | | |]; simpl; rewrite ?app_nil_r; try reflexivity.
  - apply sublist_app; [by apply sublist_inserts_r | reflexivity].
  - unfold tick. destruct (ticking b); [| reflexivity].
    destruct (queue b) as [|u q] eqn:Hq; [by rewrite Hq |]. simpl.
    rewrite app_nil_r.
    apply sublist_app; [reflexivity |]. by apply sublist_skip, sublist_nil_l.
Qed.

Lemma run_sublist evs b :
  delivered (run evs b) ++ queue (run evs b)
  `sublist_of` (delivered b ++ queue b) ++ added evs.
Proof.
  revert b. induction evs as [|e evs IH]; intros b.
  { simpl. rewrite app_nil_r. reflexivity. }
  rewrite batcher_run_cons. etrans; [apply IH |].
  change (added (e :: evs)) with (added ([e] ++ evs)).
  unfold added. rewrite omap_app, app_assoc.
  apply sublist_app; [apply step_sublist | reflexivity].
Qed.

(** X19: what a new batcher delivers is a subsequence of the updates it
    was given: nothing is made up, nothing is delivered twice, and the
    order is kept. *)
Theorem batcher_delivers_a_subsequence_of_the_updates
    (batchIntervalMs : option N) evs :
  delivered (run evs (new batchIntervalMs)) `sublist_of` added evs.
Proof.
  pose proof (run_sublist evs (new batchIntervalMs)) as Hsub. simpl in Hsub.
  etrans; [| exact Hsub]. by apply sublist_inserts_r.
Qed.

(** X20: a batcher none of whose timers is installed (never started, or
    started once and stopped) delivers nothing, however many updates
    arrive, until [start] is called. *)
Theorem stopped_batcher_delivers_nothing b evs :
  ticking b = false → forallb (λ e, negb (is_start e)) evs = true →
  delivered (run evs b) = delivered b ∧ ticking (run evs b) = false.
Proof.
  revert b. induction evs as [|e evs IH]; intros b Hi Hevs; [done |].
  simpl in Hevs. apply andb_true_iff in Hevs as [He Hevs].
  rewrite batcher_run_cons.
  assert (Hstep : delivered (step b e) = delivered b ∧ ticking (step b e) = false).
  { destruct e; simpl; try done.
    - unfold tick. by rewrite Hi.
    - unfold ticking in *. simpl. by apply orb_false_iff in Hi as [_ ->]. }
  destruct Hstep as [Hd Hi']. destruct (IH (step b e) Hi' Hevs) as [-> ->].
  by rewrite Hd.
Qed.

End BatcherTraceFacts.

(** Updates given to a batcher that was started once and stopped. *)
Lemma stopped_batcher_delivers_nothing_witness :
  UpdateBatcher.delivered
    (UpdateBatcher.run
       [UpdateBatcher.AddUpdate 10%Z; UpdateBatcher.Tick;
        UpdateBatcher.AddUpdate 20%Z; UpdateBatcher.Tick]
       (UpdateBatcher.stop (UpdateBatcher.start (UpdateBatcher.new None))))
  = [].
Proof.
  refine (proj1 (stopped_batcher_delivers_nothing
            (UpdateBatcher.stop (UpdateBatcher.start (UpdateBatcher.new None)))
            [UpdateBatcher.AddUpdate 10%Z; UpdateBatcher.Tick;
             UpdateBatcher.AddUpdate 20%Z; UpdateBatcher.Tick] _ _));
    reflexivity.
Defined.

(** A batcher started twice keeps the first timer after [stop]: it still
    delivers. *)
Lemma twice_started_batcher_survives_stop :
  UpdateBatcher.delivered
    (UpdateBatcher.run [UpdateBatcher.AddUpdate 10%Z; UpdateBatcher.Tick]
       (UpdateBatcher.stop
          (UpdateBatcher.start (UpdateBatcher.start (UpdateBatcher.new None)))))
  = [10%Z].
Proof. reflexivity. Qed.

(** ** Retry budget *)

Section RetryBudgetFacts.
Import Lifecycle Orchestrator RetryBudget.
Local Open Scope Z_scope.

Lemma transition_within_budget t t' :
  transition t t' → within_budget t → within_budget t'.
Proof.
  intros Htr [Hb Hq].
  destruct Htr as [now t Hs | p t Hs Hp Hm | now t Hs | cls code t Hs | t Hs' | t Hs];
    unfold within_budget; simpl; try rewrite Hs.
  - split; [done |]. intros _. apply Hq. by left.
  - split; [done |]. intros _. apply Hq. by right.
  - split; [done |]. by intros [? | ?].
  - specialize (Hq (or_intror Hs)).
    destruct cls; simpl; try destruct (Z.ltb_spec (retry_count t + 1) (max_retries t));
      simpl; (split; [lia |]); try (by intros [? | ?]); intros _; lia.
  - split; [done |]. by intros [? | ?].
  - split; [lia |]. intros _. lia.
Qed.

(** X21: in every record the system can reach, the retry count is never
    negative and never above the retry budget, the budget being read as
    at least 1: with [max_retries] of 1 or more it never exceeds
    [max_retries], and a budget of 0 still lets the count reach 1. *)
Theorem retry_count_stays_within_budget σ tid t :
  reachable σ → tasks σ !! tid = Some t →
  0 ≤ retry_count t ≤ Z.max (max_retries t) 1.
Proof.
  intros Hσ. revert tid t.
  assert (Hall : ∀ tid t, tasks σ !! tid = Some t → within_budget t).
  { induction Hσ as [| op σ Hσ IH]; intros tid t Ht; [done |].
    destruct (exec_tasks_cases op σ)
      as [Heq | [(tid' & max & Hn & Heq) | (tid' & t0 & t1 & H0 & Htr & Heq)]];
      rewrite Heq in Ht.
    - by eapply IH.
    - destruct (decide (tid' = tid)) as [-> | Hne].
      + rewrite lookup_insert_eq in Ht. injection Ht as <-.
        unfold within_budget. simpl. split; [lia |]. intros _. lia.
      + rewrite lookup_insert_ne in Ht; [by eapply IH | done].
    - destruct (decide (tid' = tid)) as [-> | Hne].
      + rewrite lookup_insert_eq in Ht. injection Ht as <-.
        eapply transition_within_budget; [done |]. by eapply IH.
      + rewrite lookup_insert_ne in Ht; [by eapply IH | done]. }
  intros tid t Ht. by destruct (Hall tid t Ht).
Qed.

(** The task of the scenario that failed three times. *)
Lemma retry_count_stays_within_budget_witness :
  0 ≤ 3 ≤ Z.max 3 1.
Proof.
  exact (retry_count_stays_within_budget
           (exec_all Scenario.always_failing initial).2 "T"
           {| status := FAILED; progress := 0; retry_count := 3; max_retries := 3;
              error_code := Some "UPLOAD_FAILED"; started_at := Some 20;
              completed_at := None |}
           (reachable_exec_all _ _ reachable_initial) eq_refl).
Defined.

End RetryBudgetFacts.
